(** * habrss: the feed merge-and-filter engine

    A shallow embedding of [habrss.py]: feed items, the de-duplicating
    generator, the passed/blocked statistics ledger with its aggregated
    views, link cleanup, rule evaluation, the filtering pipeline, the
    feed parser and serializer over ElementTree elements, the printed form
    of an item, and the handler of feed requests without the network.

    Conventions of the embedding.
    - A Python [str] is a [string], with the 256 characters of [ascii] as
      its code points; a value that is a [str] or [None] (an
      [Optional[str]] field, the [.text] of an element, the result of
      [dict.get]) is an [option string], written [ostr].
    - The [dataclass] decorator in effect at run time is the one the
      module imports from [pydantic.dataclasses]: it checks the declared
      types of the fields when an instance is built. The fields of a
      [FeedItem] are declared [str], so that an item holds strings, and
      building one from a [None] raises a validation error.
    - A raised exception is the [Raise] branch of [result]; a generator is
      run to exhaustion and described by what it yielded and by the
      exception, if any, that ended it.
    - [dict] is a [gmap], [set] is a [gset]; no function here depends on
      the iteration order of a dictionary, because every iteration result
      is re-sorted. *)

From Stdlib Require Import Ascii String OrderedTypeEx.
From stdpp Require Import base option list sorting gmap strings.

Set Default Proof Using "Type".
Set Warnings "-clear-no-such-hyp,-register-all".
#[local] Arguments String.append !_ _ / : simpl nomatch.

(** ** Python values and exceptions *)

Abbreviation ostr := (option string).

(** The exceptions that the modelled code can raise. [re_error] is
    [re.error] (a pattern that does not compile), [ValidationError] is
    pydantic's (a field of the wrong type), [XMLParseError] is
    [xml.etree.ElementTree.ParseError]. *)
Inductive exn : Set :=
| AttributeError
| ValidationError
| re_error
| XMLParseError.

Inductive result (A : Type) : Type :=
| Ok (a : A)
| Raise (e : exn).
Arguments Ok {A} a.
Arguments Raise {A} e.

Definition bind {A B : Type} (m : result A) (k : A → result B) : result B :=
  match m with
  | Ok a => k a
  | Raise e => Raise e
  end.

Notation "'let*' x := m 'in' k" := (bind m (λ x, k))
  (at level 10, x name, m at level 100, k at level 200).

(** Truthiness of a [str]: [''] is falsy. *)
Definition truthy (s : string) : bool := negb (String.eqb s "").

(** ** Configuration records *)

Module FilterConfig.
Record t : Type := mk {
  title : ostr;
  category : ostr;
  creator : ostr
}.
End FilterConfig.

Module FeedConfig.
Record t : Type := mk {
  name : string;
  urls : list string;
  exclude : list FilterConfig.t;
  include : list FilterConfig.t
}.
End FeedConfig.

Module FeedsConfig.
Record t : Type := mk {
  feeds : list FeedConfig.t
}.
End FeedsConfig.

(** ** Feed items and de-duplication *)

Module FeedItem.
Record t : Type := mk {
  title : string;
  guid : string;
  guid_permalink : string;
  link : string;
  description : string;
  pub_date : string;
  categories : list string;
  creator : string
}.

(** [FeedItem(title=..., ...)] on arguments that are strings or [None],
    as [parse_feed] supplies them: the instance is built when every
    argument is a string and every category is one; otherwise the
    validation of the declared field types raises. *)
Definition init (title guid guid_permalink link description pub_date : ostr)
    (categories : list ostr) (creator : ostr) : result t :=
  match title, guid, guid_permalink, link, description, pub_date,
        mapM id categories, creator with
  | Some t, Some g, Some p, Some l, Some d, Some pd, Some cs, Some c =>
      Ok (mk t g p l d pd cs c)
  | _, _, _, _, _, _, _, _ => Raise ValidationError
  end.

(** The loop of [unicalize], started with a given [seen_guids] set. *)
Fixpoint unicalize_from (seen_guids : gset string) (items : list t) : list t :=
  match items with
  | [] => []
  | item :: rest =>
      if decide (guid item ∈ seen_guids)
      then unicalize_from seen_guids rest
      else item :: unicalize_from ({[guid item]} ∪ seen_guids) rest
  end.

Definition unicalize (items : list t) : list t := unicalize_from ∅ items.

(** The first item of a sequence that carries the guid [g]. *)
Fixpoint first_with_guid (g : string) (items : list t) : option t :=
  match items with
  | [] => None
  | item :: rest =>
      if decide (guid item = g) then Some item else first_with_guid g rest
  end.
End FeedItem.

(** ** The statistics ledger *)

Module FilterStatistics.
Record t : Type := mk {
  passed : gmap string FeedItem.t;
  blocked : gmap string FeedItem.t
}.

(** [FilterStatistics()]: both dictionaries empty. *)
Definition empty : t := mk ∅ ∅.

(** [if key in other: del other[key]] *)
Definition del_if_in (key : string) (other : gmap string FeedItem.t)
  : gmap string FeedItem.t :=
  match other !! key with
  | Some _ => delete key other
  | None => other
  end.

Definition add (self : t) (item : FeedItem.t) (passed_flag : bool) : t :=
  let key := FeedItem.title item in
  if passed_flag
  then mk (<[key := item]> (passed self)) (del_if_in key (blocked self))
  else mk (del_if_in key (passed self)) (<[key := item]> (blocked self)).

(** A sequence of [add] calls, oldest first. *)
Definition add_all (self : t) (calls : list (FeedItem.t * bool)) : t :=
  foldl (λ s c, add s c.1 c.2) self calls.

(** The most recent call, if any, that recorded the title [key]. *)
Definition last_call (key : string) (calls : list (FeedItem.t * bool))
  : option (FeedItem.t * bool) :=
  last (filter (λ c, FeedItem.title c.1 = key) calls).

(** *** The aggregated views *)

(** [Counter(labels).items()]: every distinct label with the number of
    its occurrences, in the order of first occurrence. *)
Fixpoint counter_add (label : string) (counts : list (string * nat))
  : list (string * nat) :=
  match counts with
  | [] => [(label, 1)]
  | (l, n) :: rest =>
      if decide (l = label) then (l, S n) :: rest
      else (l, n) :: counter_add label rest
  end.

Definition Counter (labels : list string) : list (string * nat) :=
  foldl (λ counts label, counter_add label counts) [] labels.

(** The count that a list of counts holds for a label. *)
Fixpoint count_of (label : string) (counts : list (string * nat)) : nat :=
  match counts with
  | [] => 0
  | (l, n) :: rest => if decide (l = label) then n else count_of label rest
  end.

(** [a < b] on tuples [(count, label)]: the first component that differs
    decides; strings compare by code points. *)
Definition tuple_lt (a b : nat * string) : bool :=
  if decide (a.1 = b.1) then String.ltb a.2 b.2 else a.1 <? b.1.

(** [sorted(tuples, reverse=True)], as an insertion sort that compares
    with [<] only, like [list.sort]. *)
Fixpoint insert_reverse (x : nat * string) (sorted : list (nat * string))
  : list (nat * string) :=
  match sorted with
  | [] => [x]
  | y :: rest =>
      if tuple_lt y x then x :: y :: rest else y :: insert_reverse x rest
  end.

Fixpoint sorted_reverse (tuples : list (nat * string)) : list (nat * string) :=
  match tuples with
  | [] => []
  | x :: rest => insert_reverse x (sorted_reverse rest)
  end.

(** The body shared by the four views: count the labels, swap every pair
    to [(count, key)], sort in reverse. *)
Definition counted (labels : list string) : list (nat * string) :=
  sorted_reverse ((λ kc, (kc.2, kc.1)) <$> Counter labels).

(** [d.values()], in some order: the views sort what they count. *)
Definition values (d : gmap string FeedItem.t) : list FeedItem.t :=
  (map_to_list d).*2.

Definition passed_categories (self : t) : list (nat * string) :=
  counted (values (passed self) ≫= FeedItem.categories).

Definition blocked_categories (self : t) : list (nat * string) :=
  counted (values (blocked self) ≫= FeedItem.categories).

Definition passed_creators (self : t) : list (nat * string) :=
  counted (FeedItem.creator <$> values (passed self)).

Definition blocked_creators (self : t) : list (nat * string) :=
  counted (FeedItem.creator <$> values (blocked self)).

(** *** The views in the words of the specification *)

(** The number of occurrences of a label in a list of labels. *)
Definition occurrences (label : string) (labels : list string) : nat :=
  length (filter (λ l, l = label) labels).

(** [a] comes before [b] in the descending order of the pairs
    [(count, label)]: a larger count first, and for equal counts the
    label that is later in the lexicographic order first. *)
Definition precedes (a b : nat * string) : Prop :=
  b.1 < a.1 ∨ (a.1 = b.1 ∧ String.ltb b.2 a.2 = true).

(** [view] lists, in descending order, the pair [(n, label)] for every
    label whose count [n = count label] is positive, and nothing else. *)
Definition is_view (count : string → nat) (view : list (nat * string)) : Prop :=
  StronglySorted precedes view ∧
  ∀ n label, (n, label) ∈ view ↔ 0 < n ∧ n = count label.

(** The occurrences of a category label over the category lists of all
    the entries that a dictionary holds. *)
Definition category_total (d : gmap string FeedItem.t) (label : string) : nat :=
  sum_list ((λ item, occurrences label (FeedItem.categories item)) <$> values d).

(** The number of entries of a dictionary with a given creator. *)
Definition creator_total (d : gmap string FeedItem.t) (label : string) : nat :=
  length (filter (λ item, FeedItem.creator item = label) (values d)).
End FilterStatistics.

(** ** Link cleanup *)

(** [s.split(sep)[0]] for a separator that is not empty: what comes
    before the first occurrence of [sep] in [s], or all of [s] when [sep]
    does not occur. *)
Fixpoint split_head (sep s : string) : string :=
  match s with
  | EmptyString => EmptyString
  | String c s' =>
      if String.prefix sep s then EmptyString else String c (split_head sep s')
  end.

Definition cleanup_link (link : string) : string := split_head "?utm" link.

(** [s] holds [sep] right after the prefix [p]. *)
Definition occurs_after (sep p s : string) : Prop := ∃ r, s = p +:+ sep +:+ r.

(** [p] is what precedes the first occurrence of [sep] in [s]. *)
Definition before_first (sep p s : string) : Prop :=
  occurs_after sep p s ∧
  ∀ p', occurs_after sep p' s → String.length p ≤ String.length p'.

(** ** Rule evaluation *)

(** The engine behind [re.fullmatch(pattern, string, re.IGNORECASE)].
    [re_compile pattern] is [None] when the pattern does not compile (the
    call raises [re.error]); otherwise it is the case-insensitive
    full-match predicate of the compiled pattern. The development holds
    for every engine. *)
Class Regex : Type := re_compile : string → option (string → bool).

Section rules.
Context {engine : Regex}.

(** [re.fullmatch(pattern, s, re.IGNORECASE)], as a truth value. *)
Definition re_fullmatch (pattern s : string) : result bool :=
  match re_compile pattern with
  | None => Raise re_error
  | Some matcher => Ok (matcher s)
  end.

(** [any(re.fullmatch(pattern, c, re.IGNORECASE) for c in values)] *)
Fixpoint any_fullmatch (pattern : string) (values : list string) : result bool :=
  match values with
  | [] => Ok false
  | v :: rest =>
      let* m := re_fullmatch pattern v in
      if m then Ok true else any_fullmatch pattern rest
  end.

(** The body of the loop of [check_filters] for one rule: [Ok true] is
    [return True], [Ok false] goes on to the next rule. *)
Definition filter_matches (item : FeedItem.t) (filt : FilterConfig.t)
  : result bool :=
  let* t := match FilterConfig.title filt with
            | None => Ok false
            | Some pattern => re_fullmatch pattern (FeedItem.title item)
            end in
  if t then Ok true else
  let* c := match FilterConfig.category filt with
            | None => Ok false
            | Some pattern => any_fullmatch pattern (FeedItem.categories item)
            end in
  if c then Ok true else
  match FilterConfig.creator filt with
  | None => Ok false
  | Some pattern => re_fullmatch pattern (FeedItem.creator item)
  end.

Fixpoint check_filters (item : FeedItem.t) (filters : list FilterConfig.t)
  : result bool :=
  match filters with
  | [] => Ok false
  | filt :: rest =>
      let* m := filter_matches item filt in
      if m then Ok true else check_filters item rest
  end.

(** The test of [process_feed_items]:
    [check_filters(item, exclude) and not check_filters(item, include)];
    the include rules are evaluated only when an exclude rule matched. *)
Definition is_blocked (item : FeedItem.t) (feed_config : FeedConfig.t)
  : result bool :=
  let* excluded := check_filters item (FeedConfig.exclude feed_config) in
  if excluded
  then let* included := check_filters item (FeedConfig.include feed_config) in
       Ok (negb included)
  else Ok false.

(** *** The rules in the words of the specification *)

(** A pattern that is present fully matches a value. *)
Definition fully_matches (pattern : ostr) (value : string) : bool :=
  match pattern with
  | Some p =>
      match re_compile p with
      | Some matcher => matcher value
      | None => false
      end
  | None => false
  end.

(** A rule matches an entry if any of its present patterns fully matches
    the corresponding field; for the category, any one of the labels. *)
Definition spec_rule_matches (item : FeedItem.t) (rule : FilterConfig.t) : bool :=
  fully_matches (FilterConfig.title rule) (FeedItem.title item)
  || existsb (fully_matches (FilterConfig.category rule)) (FeedItem.categories item)
  || fully_matches (FilterConfig.creator rule) (FeedItem.creator item).

Definition spec_matches (item : FeedItem.t) (rules : list FilterConfig.t) : bool :=
  existsb (spec_rule_matches item) rules.

(** [classify]: [true] is "passes". *)
Definition spec_classify (item : FeedItem.t) (exclude include : list FilterConfig.t)
  : bool :=
  negb (spec_matches item exclude && negb (spec_matches item include)).

(** *** Rules whose patterns are regular expressions *)

Definition pattern_compiles (pattern : ostr) : Prop :=
  match pattern with
  | None => True
  | Some p => is_Some (re_compile p)
  end.

Definition rules_compile (rules : list FilterConfig.t) : Prop :=
  Forall (λ r, pattern_compiles (FilterConfig.title r) ∧
               pattern_compiles (FilterConfig.category r) ∧
               pattern_compiles (FilterConfig.creator r)) rules.

Definition config_compiles (feed_config : FeedConfig.t) : Prop :=
  rules_compile (FeedConfig.exclude feed_config) ∧
  rules_compile (FeedConfig.include feed_config).
End rules.

(** ** The filtering pipeline *)

(** A run of the generator [process_feed_items] to exhaustion: the items
    it yielded, the calls of [stats.add] it made (oldest first), the ledger
    it left, and the exception that ended it, if one did. *)
Module Run.
Record t : Type := mk {
  yielded : list FeedItem.t;
  calls : list (FeedItem.t * bool);
  stats : FilterStatistics.t;
  raised : option exn
}.
End Run.

Section pipeline.
Context {engine : Regex}.

(** The loop of [process_feed_items] over the items that [unicalize]
    hands it. *)
Fixpoint process_loop (items : list FeedItem.t) (feed_config : FeedConfig.t)
    (stats : FilterStatistics.t) : Run.t :=
  match items with
  | [] => Run.mk [] [] stats None
  | item :: rest =>
      match is_blocked item feed_config with
      | Raise e => Run.mk [] [] stats (Some e)
      | Ok true =>
          let r := process_loop rest feed_config
                     (FilterStatistics.add stats item false) in
          Run.mk (Run.yielded r) ((item, false) :: Run.calls r)
                 (Run.stats r) (Run.raised r)
      | Ok false =>
          let r := process_loop rest feed_config
                     (FilterStatistics.add stats item true) in
          Run.mk (item :: Run.yielded r) ((item, true) :: Run.calls r)
                 (Run.stats r) (Run.raised r)
      end
  end.

Definition process_feed_items (items : list FeedItem.t)
    (feed_config : FeedConfig.t) (stats : FilterStatistics.t) : Run.t :=
  process_loop (FeedItem.unicalize items) feed_config stats.
End pipeline.

(** ** Loading the configuration *)

(** [load_config], given the YAML document already decoded into feed
    descriptions (decoding the file and shaping the decoded mappings into
    records is the work of the YAML and dataclass libraries, which check
    that a pattern is a string or absent and nothing more). The function
    wraps the feeds into a [FeedsConfig]; the patterns of the rules stay
    the strings they are, none is compiled. *)
Definition load_config (decoded : list FeedConfig.t) : result FeedsConfig.t :=
  Ok (FeedsConfig.mk decoded).

(** The patterns that a feed holds in its rules. *)
Definition rule_patterns (r : FilterConfig.t) : list string :=
  omap id [FilterConfig.title r; FilterConfig.category r; FilterConfig.creator r].

Definition feed_patterns (f : FeedConfig.t) : list string :=
  (FeedConfig.exclude f ++ FeedConfig.include f) ≫= rule_patterns.

(** ** ElementTree

    Elements with their tag, attributes, text and children. The markup of
    a document is not modelled character by character: a document is
    represented by a tree that [tostring] writes it for, and [fromstring]
    returns the tree that the parser builds from the written text. The two
    trees differ where writing and parsing do not preserve a text: an
    empty text is not written, line ends are normalized, and a character
    that XML excludes makes the text ill-formed. Tails, comments and
    processing instructions do not occur in the trees of this module. *)
Module ET.
Inductive Element : Type :=
| Elt (tag : string) (attrib : gmap string string) (text : ostr)
      (children : list Element).

Definition tag (e : Element) : string := let 'Elt t _ _ _ := e in t.
Definition attrib (e : Element) : gmap string string := let 'Elt _ a _ _ := e in a.
Definition text (e : Element) : ostr := let 'Elt _ _ x _ := e in x.
Definition children (e : Element) : list Element := let 'Elt _ _ _ c := e in c.

(** [ET.SubElement(parent, tag).text = text], as a child to append. *)
Definition text_element (tag : string) (text : ostr) : Element := Elt tag ∅ text [].

Fixpoint with_tag (t : string) (elements : list Element) : list Element :=
  match elements with
  | [] => []
  | e :: rest =>
      if String.eqb (tag e) t then e :: with_tag t rest else with_tag t rest
  end.

(** [e.findall(t)]: the children of [e] with tag [t], in document order. *)
Definition findall (e : Element) (t : string) : list Element :=
  with_tag t (children e).

(** [e.find(t)]: the first child of [e] with tag [t], or [None]. *)
Definition find (e : Element) (t : string) : option Element :=
  head (findall e t).

(** [e.findall('t1/t2')] *)
Definition findall_path (e : Element) (t1 t2 : string) : list Element :=
  findall e t1 ≫= (λ c, findall c t2).

(** The characters that an XML document may hold. *)
Definition xml_char (c : ascii) : bool :=
  let n := nat_of_ascii c in
  (32 <=? n) || (n =? 9) || (n =? 10) || (n =? 13).

Definition xml_chars (s : string) : bool :=
  forallb xml_char (list_ascii_of_string s).

(** The parser reads a carriage return, alone or before a line feed, as
    a line feed. *)
Fixpoint normalize_eol (s : string) : string :=
  match s with
  | EmptyString => EmptyString
  | String c rest =>
      if Ascii.eqb c "013"
      then match rest with
           | String "010" rest' => String "010" (normalize_eol rest')
           | _ => String "010" (normalize_eol rest)
           end
      else String c (normalize_eol rest)
  end.

(** The text that is read back for an element written with text [t]: an
    element without text or with the empty text is written as an empty
    element and has no text when parsed; a character that XML excludes
    makes the document ill-formed. *)
Definition read_text (t : ostr) : result ostr :=
  match t with
  | None => Ok None
  | Some s =>
      if String.eqb s "" then Ok None
      else if xml_chars s then Ok (Some (normalize_eol s))
      else Raise XMLParseError
  end.

(** Attribute values are escaped when written and are read back as they
    were, unless they hold a character that XML excludes. *)
Definition read_attrib (a : gmap string string) : result (gmap string string) :=
  if forallb xml_chars (map_to_list a).*2 then Ok a else Raise XMLParseError.

Fixpoint read_back (e : Element) : result Element :=
  match e with
  | Elt t a x c =>
      let* a' := read_attrib a in
      let* x' := read_text x in
      let* c' := (fix read_all (l : list Element) : result (list Element) :=
                    match l with
                    | [] => Ok []
                    | e :: rest =>
                        let* e' := read_back e in
                        let* rest' := read_all rest in
                        Ok (e' :: rest')
                    end) c in
      Ok (Elt t a' x' c')
  end.

Definition read_all : list Element → result (list Element) :=
  fix read_all (l : list Element) : result (list Element) :=
    match l with
    | [] => Ok []
    | e :: rest =>
        let* e' := read_back e in
        let* rest' := read_all rest in
        Ok (e' :: rest')
    end.

Inductive Document : Type :=
| Written (root : Element).

(** [ET.tostring(root, encoding='unicode')] *)
Definition tostring (root : Element) : Document := Written root.

(** [ET.fromstring(content)] *)
Definition fromstring (content : Document) : result Element :=
  let 'Written root := content in read_back root.
End ET.

(** ** The feed parser and the feed serializer *)

Definition dc_creator : string := "{http://purl.org/dc/elements/1.1/}creator".

(** [element.text] where [element] is what [find] returned: reading
    [.text] off [None] raises [AttributeError]. *)
Definition text_of (element : option ET.Element) : result ostr :=
  match element with
  | None => Raise AttributeError
  | Some e => Ok (ET.text e)
  end.

(** [element.attrib.get(key)], likewise. *)
Definition attrib_get_of (element : option ET.Element) (key : string)
  : result ostr :=
  match element with
  | None => Raise AttributeError
  | Some e => Ok (ET.attrib e !! key)
  end.

(** [cleanup_link(link)] on what [.text] gave: [None] has no [split]. *)
Definition call_cleanup_link (link : ostr) : result string :=
  match link with
  | None => Raise AttributeError
  | Some s => Ok (cleanup_link s)
  end.

(** The [FeedItem(...)] expression of [parse_feed] for one item node:
    the keyword arguments are evaluated in the order written, then the
    item is built. *)
Definition parse_item (item : ET.Element) : result FeedItem.t :=
  let* title := text_of (ET.find item "title") in
  let* guid := text_of (ET.find item "guid") in
  let* guid_permalink := attrib_get_of (ET.find item "guid") "isPermaLink" in
  let* link_text := text_of (ET.find item "link") in
  let* link := call_cleanup_link link_text in
  let* description := text_of (ET.find item "description") in
  let* pub_date := text_of (ET.find item "pubDate") in
  let categories := ET.text <$> ET.findall item "category" in
  let* creator := text_of (ET.find item dc_creator) in
  FeedItem.init title guid guid_permalink (Some link) description pub_date
    categories creator.

(** A run of the generator [parse_feed] to exhaustion: the items it
    yielded and the exception that ended it, if one did. *)
Module Parsed.
Record t : Type := mk {
  yielded : list FeedItem.t;
  raised : option exn
}.
End Parsed.

Fixpoint parse_items (items : list ET.Element) : Parsed.t :=
  match items with
  | [] => Parsed.mk [] None
  | item :: rest =>
      match parse_item item with
      | Raise e => Parsed.mk [] (Some e)
      | Ok feed_item =>
          let r := parse_items rest in
          Parsed.mk (feed_item :: Parsed.yielded r) (Parsed.raised r)
      end
  end.

Definition parse_feed (content : ET.Document) : Parsed.t :=
  match ET.fromstring content with
  | Raise e => Parsed.mk [] (Some e)
  | Ok root => parse_items (ET.findall_path root "channel" "item")
  end.

(** The [guid] element: [isPermaLink] is set only when the value is
    truthy. *)
Definition dump_guid (item : FeedItem.t) : ET.Element :=
  ET.Elt "guid"
    (if truthy (FeedItem.guid_permalink item)
     then {["isPermaLink" := FeedItem.guid_permalink item]}
     else ∅)
    (Some (FeedItem.guid item)) [].

(** The body of the loop of [dump_feed]: the [item] element. *)
Definition dump_item (item : FeedItem.t) : ET.Element :=
  ET.Elt "item" ∅ None
    ([ ET.text_element "title" (Some (FeedItem.title item));
       dump_guid item;
       ET.text_element "link" (Some (FeedItem.link item));
       ET.text_element "description" (Some (FeedItem.description item));
       ET.text_element "pubDate" (Some (FeedItem.pub_date item)) ]
     ++ ((λ category, ET.text_element "category" (Some category))
           <$> FeedItem.categories item)
     ++ [ ET.text_element dc_creator (Some (FeedItem.creator item)) ]).

Definition dump_feed (items : list FeedItem.t) : ET.Document :=
  ET.tostring
    (ET.Elt "rss" ∅ None
       [ ET.text_element "title" (Some "habrss feed");
         ET.Elt "channel" ∅ None (dump_item <$> items) ]).

(** *** Entries and the round trip *)

(** The entry with its link cleaned up. *)
Definition with_clean_link (item : FeedItem.t) : FeedItem.t :=
  FeedItem.mk (FeedItem.title item) (FeedItem.guid item)
    (FeedItem.guid_permalink item)
    (cleanup_link (FeedItem.link item))
    (FeedItem.description item) (FeedItem.pub_date item)
    (FeedItem.categories item) (FeedItem.creator item).

(** The link of the entry is the result of a cleanup. *)
Definition clean_link (item : FeedItem.t) : Prop :=
  ∃ link, FeedItem.link item = cleanup_link link.

(** A string that is written and read back unchanged: not empty, and
    made of characters of XML other than the carriage return. *)
Definition plain (s : string) : bool :=
  negb (String.eqb s "") && ET.xml_chars s && String.eqb (ET.normalize_eol s) s.

(** Every field of the entry but the permalink flag is plain. *)
Definition plain_fields (item : FeedItem.t) : Prop :=
  plain (FeedItem.title item) = true ∧ plain (FeedItem.guid item) = true ∧
  plain (FeedItem.link item) = true ∧
  plain (FeedItem.description item) = true ∧
  plain (FeedItem.pub_date item) = true ∧
  Forall (λ category, plain category = true) (FeedItem.categories item) ∧
  plain (FeedItem.creator item) = true.


(** The permalink flag that a serialized item carries: the attribute is
    there only for a truthy value. *)
Definition written_permalink (item : FeedItem.t) : ostr :=
  if truthy (FeedItem.guid_permalink item)
  then Some (FeedItem.guid_permalink item)
  else None.

(** The sub-elements that [parse_feed] reads [.text] from. *)
Definition mandatory_tags : list string :=
  ["title"; "guid"; "link"; "description"; "pubDate"; dc_creator].

(** An item element has the six sub-elements, each with a text, the
    permalink attribute on its guid, and a text in each of its category
    sub-elements, however many. *)
Definition complete_item (item : ET.Element) : Prop :=
  (∀ t, t ∈ mandatory_tags →
        ∃ e, ET.find item t = Some e ∧ is_Some (ET.text e)) ∧
  (∀ g, ET.find item "guid" = Some g →
        is_Some (ET.attrib g !! "isPermaLink")) ∧
  Forall (λ e, is_Some (ET.text e)) (ET.findall item "category").

(** ** A small regular-expression engine

    An engine on which the rules can be run. It compiles the patterns made
    of literal characters, [.], and a literal or [.] followed by [*]; it
    refuses a [*] that has nothing to repeat, as [re] does, and every
    pattern with another metacharacter. A compiled pattern matches the
    whole subject, ignoring the case of ASCII letters; [.] matches any
    character but a newline. *)
Module MiniRe.
Inductive atom : Set :=
| Lit (c : ascii)
| Dot.

(** An atom, starred or not. *)
Definition piece : Set := atom * bool.

Definition metachar (c : ascii) : bool :=
  existsb (Ascii.eqb c) (list_ascii_of_string "*+?()[]{}|\^$").

Definition atom_of (c : ascii) : option atom :=
  if Ascii.eqb c "." then Some Dot
  else if metachar c then None
  else Some (Lit c).

Fixpoint parse (pattern : string) : option (list piece) :=
  match pattern with
  | EmptyString => Some []
  | String c rest =>
      match atom_of c with
      | None => None
      | Some a =>
          match rest with
          | String "*" rest' => cons (a, true) <$> parse rest'
          | _ => cons (a, false) <$> parse rest
          end
      end
  end.

Definition lower (c : ascii) : ascii :=
  let n := nat_of_ascii c in
  if (65 <=? n) && (n <=? 90) then ascii_of_nat (n + 32) else c.

Definition atom_matches (a : atom) (c : ascii) : bool :=
  match a with
  | Dot => negb (Ascii.eqb c "010")
  | Lit x => Ascii.eqb (lower x) (lower c)
  end.

Fixpoint fullmatch (pieces : list piece) (s : string) : bool :=
  match pieces with
  | [] => String.eqb s ""
  | (a, false) :: pieces' =>
      match s with
      | String c s' => atom_matches a c && fullmatch pieces' s'
      | EmptyString => false
      end
  | (a, true) :: pieces' =>
      (fix star (s : string) : bool :=
         fullmatch pieces' s ||
         match s with
         | String c s' => atom_matches a c && star s'
         | EmptyString => false
         end) s
  end.

Definition engine : Regex := λ pattern, fullmatch <$> parse pattern.
End MiniRe.

(** ** The example of the specification

    Feed [tech] excludes the creators [spam.*] and includes the titles
    [Important.*]; two sources return an entry with guid [g1]. *)
Module Sample.
Definition tech : FeedConfig.t :=
  FeedConfig.mk "tech" ["https://a.example/rss"; "https://b.example/rss"]
    [FilterConfig.mk None None (Some "spam.*")]
    [FilterConfig.mk (Some "Important.*") None None].

Definition update : FeedItem.t :=
  FeedItem.mk "Important Update" "g1" "true" "https://example.com/a"
    "An update" "Mon, 01 Mar 2021" ["News"] "spambot".

(** The same guid again, from the second source. *)
Definition update_again : FeedItem.t :=
  FeedItem.mk "Important Update (mirror)" "g1" "true"
    "https://mirror.example.com/a" "An update" "Mon, 01 Mar 2021"
    ["News"] "spambot".

Definition advert : FeedItem.t :=
  FeedItem.mk "Buy now" "g2" "true" "https://example.com/b"
    "An offer" "Tue, 02 Mar 2021" ["Ads"; "Ads"; "News"] "SpamKing".

Definition essay : FeedItem.t :=
  FeedItem.mk "On parsers" "g3" "true" "https://example.com/c"
    "An essay" "Wed, 03 Mar 2021" ["Code"; "News"] "alice".

Definition items : list FeedItem.t := [update; update_again; advert; essay].

(** The ledger that the example run of the pipeline leaves. *)
Definition ledger : FilterStatistics.t :=
  Run.stats (process_feed_items (engine := MiniRe.engine) items tech
               FilterStatistics.empty).

(** A feed with a pattern that is not a regular expression: a [*] with
    nothing to repeat. *)
Definition broken : FeedConfig.t :=
  FeedConfig.mk "broken" ["https://a.example/rss"]
    [FilterConfig.mk (Some "*") None None] [].

(** An entry whose link carries a tracking parameter. *)
Definition tracked : FeedItem.t :=
  FeedItem.mk "Release notes" "g4" "false"
    "https://example.com/d?utm_source=rss" "What is new"
    "Thu, 04 Mar 2021" [] "bob".

(** The update with an empty permalink flag, and the upstream item that
    the parser reads it from: [<guid isPermaLink=''>g1</guid>]. *)
Definition unflagged : FeedItem.t :=
  FeedItem.mk "Important Update" "g1" "" "https://example.com/a"
    "An update" "Mon, 01 Mar 2021" ["News"] "spambot".

(** An item element of the update, with the given attributes on its
    guid. *)
Definition update_item (guid_attrib : gmap string string) : ET.Element :=
  ET.Elt "item" ∅ None
    [ ET.text_element "title" (Some "Important Update");
      ET.Elt "guid" guid_attrib (Some "g1") [];
      ET.text_element "link" (Some "https://example.com/a");
      ET.text_element "description" (Some "An update");
      ET.text_element "pubDate" (Some "Mon, 01 Mar 2021");
      ET.text_element "category" (Some "News");
      ET.text_element dc_creator (Some "spambot") ].

Definition flagged_item : ET.Element := update_item {["isPermaLink" := "true"]}.
Definition unflagged_item : ET.Element := update_item {["isPermaLink" := ""]}.
Definition flagless_item : ET.Element := update_item ∅.

(** An item without publication date. *)
Definition undated_item : ET.Element :=
  ET.Elt "item" ∅ None
    [ ET.text_element "title" (Some "Buy now");
      ET.Elt "guid" {["isPermaLink" := "true"]} (Some "g2") [];
      ET.text_element "link" (Some "https://example.com/b");
      ET.text_element "description" (Some "An offer");
      ET.text_element dc_creator (Some "SpamKing") ].

(** The feed document with the given item elements. *)
Definition feed_of (items : list ET.Element) : ET.Document :=
  ET.Written (ET.Elt "rss" ∅ None [ET.Elt "channel" ∅ None items]).
End Sample.

(** ** The printed form of an item *)

(** [sep.join(parts)] *)
Fixpoint join (sep : string) (parts : list string) : string :=
  match parts with
  | [] => ""
  | part :: rest =>
      match rest with
      | [] => part
      | _ :: _ => part +:+ sep +:+ join sep rest
      end
  end.

(** [f'"{s}"']: the string between two double quotes. *)
Definition quoted (s : string) : string :=
  String "034" (s +:+ String "034" "").

(** [FeedItem.__repr__] *)
Definition __repr__ (self : FeedItem.t) : string :=
  let res := quoted (FeedItem.title self) +:+ " by "
             +:+ quoted (FeedItem.creator self) in
  let categories := join ", " (quoted <$> FeedItem.categories self) in
  let res := if truthy categories
             then res +:+ " (" +:+ categories +:+ ")"
             else res in
  res +:+ " - <" +:+ FeedItem.link self +:+ ">".

(** ** The feed request handler

    [Handler.handle_feed] without the network: what the HTTP client
    returns for a source is given by a function of the address and of the
    user agent that the handler sends, and a response is described by the
    two things the handler reads off it, the value of its [content-type]
    header, if it has one, and its text. A request is described by the
    feed name of its path and by its [user-agent] header, if it has one.
    The text of the answer is the XML declaration followed by the document
    that [dump_feed] returns; the answer is described by its content type
    and this document. The pipeline has run, and the ledger is as it has
    left it, when the response is built. *)

(** The exceptions that leave [handle_feed]: the three that the handler
    raises on its own account, the one that the constructor of the
    response raises, and those of the parser and of the pipeline. *)
Inductive failure : Set :=
| HTTPNotFound
| KeyError
| IndexError
| ValueError
| Uncaught (e : exn).

Inductive outcome (A : Type) : Type :=
| Returned (a : A)
| Failed (e : failure).
Arguments Returned {A} a.
Arguments Failed {A} e.

Definition and_then {A B : Type} (m : outcome A) (k : A → outcome B)
  : outcome B :=
  match m with
  | Returned a => k a
  | Failed e => Failed e
  end.

Notation "'do*' x := m 'in' k" := (and_then m (λ x, k))
  (at level 10, x name, m at level 100, k at level 200).

Module Request.
Record t : Type := mk {
  name : string;
  user_agent : ostr
}.
End Request.

Module Response.
Record t : Type := mk {
  content_type : ostr;
  text : ET.Document
}.
End Response.

(** The HTTP client: the response to a request for an address, sent with
    a user agent. *)
Definition Client : Type := string → string → Response.t.

(** The answer of [handle_feed]: its content type and the document. *)
Module Answer.
Record t : Type := mk {
  content_type : string;
  document : ET.Document
}.
End Answer.

(** [sub in s] on strings. *)
Fixpoint contains (sub s : string) : bool :=
  String.prefix sub s ||
  match s with
  | EmptyString => false
  | String _ s' => contains sub s'
  end.

(** [aiohttp.web.Response(text=..., content_type=content_type)]: the
    constructor takes the character set as an argument of its own and
    raises [ValueError] for a content type that holds [charset]. *)
Definition make_response (content_type : string) (document : ET.Document)
  : outcome Answer.t :=
  if contains "charset" content_type
  then Failed ValueError
  else Returned (Answer.mk content_type document).

(** The [for ... else] loop over the configured feeds: the first feed
    with the requested name; [None] is the [else] branch. *)
Fixpoint find_feed (feeds : list FeedConfig.t) (feed_name : string)
  : option FeedConfig.t :=
  match feeds with
  | [] => None
  | feed_config :: rest =>
      if decide (FeedConfig.name feed_config = feed_name)
      then Some feed_config
      else find_feed rest feed_name
  end.

(** [itertools.chain] over generators run to exhaustion: the items
    of the runs one after the other, up to the exception of the first run
    that raises. *)
Fixpoint chain (runs : list Parsed.t) : Parsed.t :=
  match runs with
  | [] => Parsed.mk [] None
  | run :: rest =>
      match Parsed.raised run with
      | Some e => Parsed.mk (Parsed.yielded run) (Some e)
      | None =>
          let r := chain rest in
          Parsed.mk (Parsed.yielded run ++ Parsed.yielded r) (Parsed.raised r)
      end
  end.

Module Handler.
Record t : Type := mk {
  _config : FeedsConfig.t;
  _stats : FilterStatistics.t
}.

(** [Handler(config)]: the ledger starts empty. *)
Definition init (config : FeedsConfig.t) : t := mk config FilterStatistics.empty.
End Handler.

Section handler.
Context {engine : Regex}.

(** [process_feed_items] over an iterable that may raise when it is asked
    for its next item: the items it yields are processed as they come, and
    its exception, raised after the last of them, ends the run unless a
    rule has ended it before. *)
Definition process_feed_stream (items : Parsed.t) (feed_config : FeedConfig.t)
    (stats : FilterStatistics.t) : Run.t :=
  let r := process_feed_items (Parsed.yielded items) feed_config stats in
  match Run.raised r with
  | Some _ => r
  | None => Run.mk (Run.yielded r) (Run.calls r) (Run.stats r)
                   (Parsed.raised items)
  end.

(** One element of the list of tasks: the user agent of the request is
    looked up for every address. *)
Definition session_get (client : Client) (request : Request.t) (url : string)
  : outcome Response.t :=
  match Request.user_agent request with
  | None => Failed KeyError
  | Some agent => Returned (client url agent)
  end.

(** The list of tasks, gathered. *)
Fixpoint gather (client : Client) (request : Request.t) (urls : list string)
  : outcome (list Response.t) :=
  match urls with
  | [] => Returned []
  | url :: rest =>
      do* response := session_get client request url in
      do* responses := gather client request rest in
      Returned (response :: responses)
  end.

(** [handle_feed]: the answer or the exception, and the handler with the
    ledger as the call leaves it. *)
Definition handle_feed (self : Handler.t) (client : Client)
    (request : Request.t) : outcome Answer.t * Handler.t :=
  let feed_name := Request.name request in
  match find_feed (FeedsConfig.feeds (Handler._config self)) feed_name with
  | None => (Failed HTTPNotFound, self)
  | Some feed_config =>
      match gather client request (FeedConfig.urls feed_config) with
      | Failed e => (Failed e, self)
      | Returned responses =>
          match responses with
          | [] => (Failed IndexError, self)
          | first :: _ =>
              match Response.content_type first with
              | None => (Failed KeyError, self)
              | Some header =>
                  let content_type := split_head ";" header in
                  let contents := Response.text <$> responses in
                  let r := process_feed_stream
                             (chain (parse_feed <$> contents))
                             feed_config (Handler._stats self) in
                  let self' := Handler.mk (Handler._config self) (Run.stats r) in
                  match Run.raised r with
                  | Some e => (Failed (Uncaught e), self')
                  | None =>
                      (make_response content_type
                         (dump_feed (Run.yielded r)), self')
                  end
              end
          end
      end
  end.

(** Requests served one after the other, oldest first: the outcomes and
    the handler at the end. *)
Fixpoint serve (self : Handler.t) (client : Client) (requests : list Request.t)
  : list (outcome Answer.t) * Handler.t :=
  match requests with
  | [] => ([], self)
  | request :: rest =>
      let '(out, self') := handle_feed self client request in
      let '(outs, self'') := serve self' client rest in
      (out :: outs, self'')
  end.
End handler.

(** ** Entries as the parser yields them *)

(** What holds of an entry that [parse_feed] has yielded: every field
    that comes from the text of an element is plain, the link is the
    cleanup of a plain text, and the permalink flag, which comes from an
    attribute, is made of characters of XML. *)
Definition parsed_entry (item : FeedItem.t) : Prop :=
  plain (FeedItem.title item) = true ∧ plain (FeedItem.guid item) = true ∧
  ET.xml_chars (FeedItem.guid_permalink item) = true ∧
  (∃ s, plain s = true ∧ FeedItem.link item = cleanup_link s) ∧
  plain (FeedItem.description item) = true ∧
  plain (FeedItem.pub_date item) = true ∧
  Forall (λ category, plain category = true) (FeedItem.categories item) ∧
  plain (FeedItem.creator item) = true.

(** An element as [fromstring] builds it: the reading of a written
    element. *)
Definition read_element (e' : ET.Element) : Prop :=
  ∃ e, ET.read_back e = Ok e'.

(** ** The ledger of a running service *)

(** What holds of the ledger at any time: no title is on both sides, and
    every key is the title of the entry it is mapped to. *)
Definition ledger_invariant (stats : FilterStatistics.t) : Prop :=
  (∀ key, ¬ (is_Some (FilterStatistics.passed stats !! key) ∧
             is_Some (FilterStatistics.blocked stats !! key))) ∧
  (∀ key item,
     FilterStatistics.passed stats !! key = Some item ∨
     FilterStatistics.blocked stats !! key = Some item →
     FeedItem.title item = key).

(** ** A service to run the handler on

    The feed [tech] of the example, between a feed without sources and a
    second feed of the same name. The first source of [tech] returns the
    update and the advert, the second the update again and the essay. *)
Module Served.
Definition idle : FeedConfig.t := FeedConfig.mk "idle" [] [] [].

Definition shadowed : FeedConfig.t :=
  FeedConfig.mk "tech" ["https://c.example/rss"] [] [].

Definition config : FeedsConfig.t :=
  FeedsConfig.mk [idle; Sample.tech; shadowed].

Definition first_source : ET.Document :=
  Sample.feed_of [Sample.flagged_item; dump_item Sample.advert].

Definition second_source : ET.Document :=
  Sample.feed_of [Sample.flagged_item; dump_item Sample.essay].


(** The HTTP client, given what the second source returns. *)
Definition client (second : ET.Document) : Client :=
  λ url agent,
    if String.eqb url "https://a.example/rss"
    then Response.mk (Some "application/rss+xml; charset=utf-8") first_source
    else Response.mk (Some "text/xml") second.

Definition request : Request.t := Request.mk "tech" (Some "reader/1.0").

(** A client whose responses name the character set without a [;]
    before it. *)
Definition charset_client : Client :=
  λ url agent, Response.mk (Some "text/xml charset=utf-8") first_source.


(** Two exclude rules, to be put in either order. *)
Definition no_spam : FilterConfig.t := FilterConfig.mk None None (Some "spam.*").
Definition no_ads : FilterConfig.t := FilterConfig.mk None (Some "ads") None.
Definition important : FilterConfig.t :=
  FilterConfig.mk (Some "Important.*") None None.
End Served.

(** * Properties *)

Section ledger.
Import FilterStatistics.

Lemma lookup_del_if_in (key k : string) (m : gmap string FeedItem.t) :
  del_if_in key m !! k = if decide (key = k) then None else m !! k.
Proof.
  unfold del_if_in. destruct (m !! key) eqn:Hm.
  - rewrite lookup_delete. by repeat case_decide.
  - case_decide; by subst.
Qed.

Lemma add_passed_lookup (s : t) (item : FeedItem.t) (p : bool) (k : string) :
  passed (add s item p) !! k =
    if decide (FeedItem.title item = k)
    then (if p then Some item else None)
    else passed s !! k.
Proof.
  unfold add. destruct p; simpl.
  - rewrite lookup_insert. by repeat case_decide.
  - by rewrite lookup_del_if_in.
Qed.

Lemma add_blocked_lookup (s : t) (item : FeedItem.t) (p : bool) (k : string) :
  blocked (add s item p) !! k =
    if decide (FeedItem.title item = k)
    then (if p then None else Some item)
    else blocked s !! k.
Proof.
  unfold add. destruct p; simpl.
  - by rewrite lookup_del_if_in.
  - rewrite lookup_insert. by repeat case_decide.
Qed.

Lemma add_all_snoc (s : t) calls (c : FeedItem.t * bool) :
  add_all s (calls ++ [c]) = add (add_all s calls) c.1 c.2.
Proof. unfold add_all. by rewrite foldl_app. Qed.

Lemma last_call_snoc key calls (c : FeedItem.t * bool) :
  last_call key (calls ++ [c]) =
    if decide (FeedItem.title c.1 = key) then Some c else last_call key calls.
Proof.
  unfold last_call. rewrite filter_app, filter_cons, filter_nil.
  case_decide.
  - by rewrite last_snoc.
  - by rewrite app_nil_r.
Qed.

(** What the ledger holds for a title after a run of calls from a given
    start: the entry of the last call with that title on the side its
    flag selects, or the start's content when no call recorded it. *)
Lemma add_all_lookup (s : t) calls (k : string) :
  match last_call k calls with
  | Some (item, p) =>
      passed (add_all s calls) !! k = (if p then Some item else None) ∧
      blocked (add_all s calls) !! k = (if p then None else Some item)
  | None =>
      passed (add_all s calls) !! k = passed s !! k ∧
      blocked (add_all s calls) !! k = blocked s !! k
  end.
Proof.
  induction calls as [|c calls IH] using rev_ind; [done|].
  rewrite last_call_snoc, add_all_snoc.
  rewrite add_passed_lookup, add_blocked_lookup.
  destruct c as [item p]; simpl. case_decide; [done|].
  by destruct (last_call k calls) as [[??]|].
Qed.

(** [C1] Ledger exclusivity and recency. After any finite sequence of
    [add] calls on the empty ledger, no title is a key of both [passed]
    and [blocked]; a title is held exactly in the dictionary selected by
    the flag of the most recent call with that title, mapped to that
    call's entry; and a title that no call recorded is in neither. *)
Theorem ledger_exclusive_recent (calls : list (FeedItem.t * bool)) :
  let s := add_all empty calls in
  (∀ key, ¬ (is_Some (passed s !! key) ∧ is_Some (blocked s !! key))) ∧
  (∀ key item p, last_call key calls = Some (item, p) →
     FeedItem.title item = key ∧
     (if p then passed s else blocked s) !! key = Some item ∧
     (if p then blocked s else passed s) !! key = None) ∧
  (∀ key, last_call key calls = None →
     passed s !! key = None ∧ blocked s !! key = None).
Proof.
  intros s. split_and!.
  - intros key [[x Hx] [y Hy]].
    pose proof (add_all_lookup empty calls key) as H. fold s in H.
    destruct (last_call key calls) as [[item p]|]; destruct H as [H1 H2].
    + destruct p; congruence.
    + simpl in H1. rewrite H1 in Hx. by rewrite lookup_empty in Hx.
  - intros key item p Hl.
    pose proof (add_all_lookup empty calls key) as H. fold s in H.
    rewrite Hl in H. destruct H as [H1 H2]. split.
    + unfold last_call in Hl. apply last_Some_elem_of in Hl.
      by apply list_elem_of_filter in Hl as [? _].
    + by destruct p.
  - intros key Hl.
    pose proof (add_all_lookup empty calls key) as H. fold s in H.
    rewrite Hl in H. simpl in H. by rewrite !lookup_empty in H.
Qed.
End ledger.

Section link.

Lemma prefix_occurs (sep s : string) :
  String.prefix sep s = true ↔ occurs_after sep "" s.
Proof.
  unfold occurs_after. simpl. revert s.
  induction sep as [|a sep IH]; intros s.
  - destruct s; simpl; split; eauto.
  - destruct s as [|b s]; simpl; [split; [done|by intros [? ?]]|].
    destruct (Ascii.ascii_dec a b) as [->|Hab].
    + rewrite IH. split; intros [r Hr]; exists r; [by rewrite Hr|by injection Hr].
    + split; [done|]. intros [r Hr]. by injection Hr.
Qed.

Lemma occurs_after_cons (sep : string) c p s :
  occurs_after sep (String c p) (String c s) ↔ occurs_after sep p s.
Proof.
  unfold occurs_after; simpl.
  split; intros [r Hr]; exists r; [by injection Hr|by rewrite Hr].
Qed.

Lemma split_head_cons (sep : string) c s :
  split_head sep (String c s) =
    if String.prefix sep (String c s) then "" else String c (split_head sep s).
Proof. reflexivity. Qed.

Lemma split_head_first (sep s p : string) :
  before_first sep p s → split_head sep s = p.
Proof.
  revert p. induction s as [|c s IH]; intros p [Hocc Hmin].
  - destruct Hocc as [r Hr]. by destruct p.
  - rewrite split_head_cons. destruct (String.prefix sep (String c s)) eqn:Hpre.
    + apply prefix_occurs, Hmin in Hpre. destruct p; [done|simpl in Hpre; lia].
    + destruct p as [|c' p].
      * apply prefix_occurs in Hocc. congruence.
      * assert (c' = c) as ->.
        { destruct Hocc as [r Hr]. simpl in Hr. by injection Hr. }
        f_equal. apply IH. split; [by apply occurs_after_cons in Hocc|].
        intros p' Hp'. apply (occurs_after_cons sep c) in Hp'.
        apply Hmin in Hp'. simpl in Hp'. lia.
Qed.

Lemma split_head_absent (sep s : string) :
  (∀ p, ¬ occurs_after sep p s) → split_head sep s = s.
Proof.
  induction s as [|c s IH]; intros Hno; [done|]. rewrite split_head_cons.
  destruct (String.prefix sep (String c s)) eqn:Hpre.
  - apply prefix_occurs in Hpre. by destruct (Hno "").
  - f_equal. apply IH. intros p Hp. apply (Hno (String c p)).
    by apply occurs_after_cons.
Qed.

(** Every string either holds the separator, and then there is a first
    occurrence, or does not hold it at all. *)
Lemma first_or_absent (sep s : string) :
  (∃ p, before_first sep p s) ∨ (∀ p, ¬ occurs_after sep p s).
Proof.
  induction s as [|c s IH].
  - destruct (String.prefix sep "") eqn:Hpre.
    + left. exists "". split; [by apply prefix_occurs|simpl; lia].
    + right. intros p [r Hr]. destruct p; [|done].
      assert (String.prefix sep "" = true); [|congruence].
      apply prefix_occurs. by exists r.
  - destruct (String.prefix sep (String c s)) eqn:Hpre.
    { left. exists "". split; [by apply prefix_occurs|simpl; lia]. }
    destruct IH as [[p [Hocc Hmin]]|Hno].
    + left. exists (String c p). split; [by apply occurs_after_cons|].
      intros [|c' p'] Hp'.
      * apply prefix_occurs in Hp'. congruence.
      * assert (c' = c) as ->.
        { destruct Hp' as [r Hr]. simpl in Hr. by injection Hr. }
        apply occurs_after_cons, Hmin in Hp'. simpl. lia.
    + right. intros [|c' p'] Hp'.
      * apply prefix_occurs in Hp'. congruence.
      * assert (c' = c) as ->.
        { destruct Hp' as [r Hr]. simpl in Hr. by injection Hr. }
        by apply occurs_after_cons, Hno in Hp'.
Qed.

(** [C7] Link normalization. [cleanup_link] returns the prefix of the
    link that precedes the first occurrence of the literal [?utm], and
    the link itself when [?utm] does not occur; one of the two cases
    always applies. The two links of the specification are computed. *)
Theorem cleanup_link_first_utm (link : string) :
  (∀ p, before_first "?utm" p link → cleanup_link link = p) ∧
  ((∀ p, ¬ occurs_after "?utm" p link) → cleanup_link link = link) ∧
  ((∃ p, before_first "?utm" p link) ∨ (∀ p, ¬ occurs_after "?utm" p link)) ∧
  cleanup_link "https://example.com/a?utm_source=x" = "https://example.com/a" ∧
  cleanup_link "https://example.com/a?x=1" = "https://example.com/a?x=1".
Proof.
  split_and!.
  - apply split_head_first.
  - apply split_head_absent.
  - apply first_or_absent.
  - reflexivity.
  - reflexivity.
Qed.

Lemma string_app_assoc (a b c : string) : (a +:+ b) +:+ c = a +:+ b +:+ c.
Proof. induction a as [|x a IH]; [done|]. simpl. by f_equal. Qed.

Lemma split_head_is_prefix (sep s : string) :
  ∃ rest, s = split_head sep s +:+ rest.
Proof.
  induction s as [|c s [rest IH]]; [by exists ""|].
  rewrite split_head_cons. destruct (String.prefix sep (String c s)).
  - by exists (String c s).
  - exists rest. simpl. by rewrite <-IH.
Qed.

(** What [split_head] returns holds no separator. *)
Lemma split_head_clean (sep s : string) :
  sep ≠ "" → ∀ p, ¬ occurs_after sep p (split_head sep s).
Proof.
  intros Hsep. induction s as [|c s IH].
  - intros p [r Hr]. destruct p; [|done]. by destruct sep.
  - rewrite split_head_cons. destruct (String.prefix sep (String c s)) eqn:Hpre.
    + intros p [r Hr]. destruct p; [|done]. by destruct sep.
    + intros [|c' p] Hp.
      * assert (String.prefix sep (String c s) = true); [|congruence].
        apply prefix_occurs. destruct Hp as [r Hr]. simpl in Hr.
        destruct (split_head_is_prefix sep s) as [rest Hrest].
        exists (r +:+ rest). simpl.
        rewrite <-string_app_assoc, <-Hr. simpl. by rewrite <-Hrest.
      * assert (c' = c) as ->.
        { destruct Hp as [r Hr]. simpl in Hr. by injection Hr. }
        by apply occurs_after_cons, IH in Hp.
Qed.

Lemma cleanup_link_idempotent (link : string) :
  cleanup_link (cleanup_link link) = cleanup_link link.
Proof. apply split_head_absent, split_head_clean. done. Qed.
End link.

Section dedup.
Import FeedItem.

Lemma unicalize_from_guids seen items g :
  g ∈ guid <$> unicalize_from seen items ↔ g ∈ guid <$> items ∧ g ∉ seen.
Proof.
  revert seen. induction items as [|item rest IH]; intros seen; simpl.
  - rewrite elem_of_nil. tauto.
  - case_decide as Hin; rewrite ?fmap_cons, ?elem_of_cons, IH.
    + split; [tauto|]. intros [[->|?] ?]; tauto.
    + rewrite not_elem_of_union, not_elem_of_singleton.
      destruct (decide (g = guid item)) as [->|]; tauto.
Qed.

Lemma unicalize_from_NoDup seen items :
  NoDup (guid <$> unicalize_from seen items).
Proof.
  revert seen. induction items as [|item rest IH]; intros seen; simpl.
  - constructor.
  - case_decide; [done|]. rewrite fmap_cons. constructor; [|done].
    rewrite unicalize_from_guids. set_solver.
Qed.

Lemma unicalize_from_first seen items item :
  item ∈ unicalize_from seen items →
  (∀ x, x ∈ items → guid x = guid item → guid x ∉ seen) →
  first_with_guid (guid item) items = Some item.
Proof.
  revert seen. induction items as [|x rest IH]; intros seen; simpl.
  - by intros ?%elem_of_nil.
  - intros Hin Hseen. case_decide as Hx.
    + case_decide as Hg.
      * destruct (Hseen x); [left|done..].
      * apply (IH seen); [done|]. intros y Hy. apply Hseen. by right.
    + apply elem_of_cons in Hin as [->|Hin]; [by rewrite decide_True|].
      case_decide as Hg.
      * assert (guid item ∈ guid <$> unicalize_from ({[guid x]} ∪ seen) rest)
          as Hm by (apply list_elem_of_fmap; eauto).
        apply unicalize_from_guids in Hm. set_solver.
      * apply (IH ({[guid x]} ∪ seen)); [done|].
        intros y Hy Hyg. rewrite not_elem_of_union, not_elem_of_singleton.
        split; [congruence|]. apply Hseen; [by right|done].
Qed.

Lemma unicalize_from_sublist seen items :
  sublist (unicalize_from seen items) items.
Proof.
  revert seen. induction items as [|item rest IH]; intros seen; simpl.
  - constructor.
  - case_decide; [by apply sublist_cons|by apply sublist_skip].
Qed.

(** [C3] De-duplication. The output of [unicalize] holds exactly one
    entry per distinct guid of the input (no guid twice, every guid of the
    input present), each retained entry is the first entry of the input
    with its guid, and the output is a subsequence of the input: the
    retained entries keep their relative order. *)
Theorem unicalize_keeps_first (items : list FeedItem.t) :
  NoDup (guid <$> unicalize items) ∧
  (∀ g, g ∈ guid <$> unicalize items ↔ g ∈ guid <$> items) ∧
  (∀ item, item ∈ unicalize items →
     first_with_guid (guid item) items = Some item) ∧
  sublist (unicalize items) items.
Proof.
  unfold unicalize. split_and!.
  - apply unicalize_from_NoDup.
  - intros g. rewrite unicalize_from_guids. set_solver.
  - intros item Hin. apply (unicalize_from_first ∅); [done|set_solver].
  - apply unicalize_from_sublist.
Qed.
End dedup.


Section rule_properties.
Context {engine : Regex}.
#[local] Arguments fully_matches : simpl never.
#[local] Arguments spec_rule_matches : simpl never.
#[local] Arguments spec_matches : simpl never.

Lemma re_fullmatch_sound pattern v b :
  re_fullmatch pattern v = Ok b → b = fully_matches (Some pattern) v.
Proof.
  unfold re_fullmatch, fully_matches.
  destruct (re_compile pattern); [|done]. congruence.
Qed.

Lemma any_fullmatch_sound pattern values b :
  any_fullmatch pattern values = Ok b →
  b = existsb (fully_matches (Some pattern)) values.
Proof.
  induction values as [|v rest IH]; simpl; [congruence|].
  destruct (re_fullmatch pattern v) as [m|] eqn:Hm; [|done]. simpl.
  apply re_fullmatch_sound in Hm as <-.
  destruct m; simpl; [congruence|done].
Qed.

Lemma optional_fullmatch_sound (pattern : ostr) v b :
  match pattern with
  | None => Ok false
  | Some p => re_fullmatch p v
  end = Ok b → b = fully_matches pattern v.
Proof.
  destruct pattern; [apply re_fullmatch_sound|].
  intros [= <-]. reflexivity.
Qed.

Lemma optional_any_fullmatch_sound (pattern : ostr) values b :
  match pattern with
  | None => Ok false
  | Some p => any_fullmatch p values
  end = Ok b → b = existsb (fully_matches pattern) values.
Proof.
  destruct pattern; [apply any_fullmatch_sound|].
  intros [= <-]. by induction values.
Qed.

Lemma filter_matches_sound item filt b :
  filter_matches item filt = Ok b → b = spec_rule_matches item filt.
Proof.
  unfold filter_matches, spec_rule_matches.
  destruct (match FilterConfig.title filt with None => _ | Some _ => _ end)
    as [t|] eqn:Ht; [|done].
  apply optional_fullmatch_sound in Ht as <-. simpl.
  destruct t; simpl; [congruence|].
  destruct (match FilterConfig.category filt with None => _ | Some _ => _ end)
    as [c|] eqn:Hc; [|done].
  apply optional_any_fullmatch_sound in Hc as <-. simpl.
  destruct c; simpl; [congruence|].
  apply optional_fullmatch_sound.
Qed.

(** Whenever [check_filters] returns, it returns what the specification
    calls [matches]. *)
Lemma check_filters_sound item filters b :
  check_filters item filters = Ok b → b = spec_matches item filters.
Proof.
  unfold spec_matches.
  induction filters as [|filt rest IH]; simpl; [congruence|].
  destruct (filter_matches item filt) as [m|] eqn:Hm; [|done]. simpl.
  apply filter_matches_sound in Hm as <-.
  destruct m; simpl; [congruence|done].
Qed.

Lemma is_blocked_sound item feed_config b :
  is_blocked item feed_config = Ok b →
  negb b = spec_classify item (FeedConfig.exclude feed_config)
                              (FeedConfig.include feed_config).
Proof.
  unfold is_blocked, spec_classify.
  destruct (check_filters item (FeedConfig.exclude _)) as [ex|] eqn:Hex; [|done].
  apply check_filters_sound in Hex as <-. simpl.
  destruct ex; simpl; [|by intros [= <-]].
  destruct (check_filters item (FeedConfig.include _)) as [inc|] eqn:Hinc; [|done].
  apply check_filters_sound in Hinc as <-. simpl.
  intros [= <-]. by rewrite negb_involutive.
Qed.

(** *** Evaluation returns when the patterns compile *)

Lemma optional_fullmatch_returns (pattern : ostr) v :
  pattern_compiles pattern →
  ∃ b, match pattern with
       | None => Ok false
       | Some p => re_fullmatch p v
       end = Ok b.
Proof.
  destruct pattern as [p|]; [|by eexists].
  intros [m Hm]. unfold re_fullmatch. rewrite Hm. by eexists.
Qed.

Lemma optional_any_fullmatch_returns (pattern : ostr) values :
  pattern_compiles pattern →
  ∃ b, match pattern with
       | None => Ok false
       | Some p => any_fullmatch p values
       end = Ok b.
Proof.
  destruct pattern as [p|]; [|by eexists].
  intros Hp. induction values as [|v rest [b IH]]; simpl; [by eexists|].
  destruct (optional_fullmatch_returns (Some p) v Hp) as [m ->]. simpl.
  destruct m; eauto.
Qed.

Lemma filter_matches_returns item filt :
  pattern_compiles (FilterConfig.title filt) →
  pattern_compiles (FilterConfig.category filt) →
  pattern_compiles (FilterConfig.creator filt) →
  ∃ b, filter_matches item filt = Ok b.
Proof.
  intros Hpt Hpc Hpr. unfold filter_matches.
  destruct (optional_fullmatch_returns _ (FeedItem.title item) Hpt) as [b1 ->].
  simpl. destruct b1; [eauto|].
  destruct (optional_any_fullmatch_returns _ (FeedItem.categories item) Hpc)
    as [b2 ->].
  simpl. destruct b2; [eauto|].
  by apply optional_fullmatch_returns.
Qed.

Lemma check_filters_returns item filters :
  rules_compile filters →
  check_filters item filters = Ok (spec_matches item filters).
Proof.
  intros Hrules.
  assert (∃ b, check_filters item filters = Ok b) as [b Hb].
  { induction Hrules as [|filt rest (?&?&?) _ [b IH]]; simpl; [eauto|].
    destruct (filter_matches_returns item filt) as [m ->]; [done..|]. simpl.
    destruct m; eauto. }
  rewrite Hb. f_equal. by apply check_filters_sound.
Qed.

Lemma is_blocked_returns item feed_config :
  config_compiles feed_config →
  is_blocked item feed_config =
    Ok (negb (spec_classify item (FeedConfig.exclude feed_config)
                                 (FeedConfig.include feed_config))).
Proof.
  intros [Hex Hinc]. unfold is_blocked, spec_classify.
  rewrite !check_filters_returns by done. simpl.
  destruct (spec_matches item (FeedConfig.exclude _)); simpl; [|done].
  by rewrite negb_involutive.
Qed.

(** [C2] Classification with include-override. For every entry and pair
    of rule lists, whenever evaluation returns the entry is blocked
    exactly when [matches(entry, exclude) and not matches(entry, include)]
    holds, that is, it passes iff the formula of the specification is
    true, with [matches] as the specification words it (a pattern that is
    present fully matches the title, one of the category labels, or the
    creator). Evaluation does return when the patterns of the rules are
    regular expressions. In particular an entry that matches an exclude
    and an include rule passes, and an entry that matches no exclude rule
    passes. *)
Theorem classification_include_override (item : FeedItem.t)
    (feed_config : FeedConfig.t) :
  let exclude := FeedConfig.exclude feed_config in
  let include := FeedConfig.include feed_config in
  (∀ b, is_blocked item feed_config = Ok b →
        negb b = spec_classify item exclude include) ∧
  (config_compiles feed_config →
     is_blocked item feed_config = Ok (negb (spec_classify item exclude include)) ∧
     (spec_matches item exclude = true → spec_matches item include = true →
        is_blocked item feed_config = Ok false) ∧
     (spec_matches item exclude = false →
        is_blocked item feed_config = Ok false) ∧
     (spec_matches item exclude = true → spec_matches item include = false →
        is_blocked item feed_config = Ok true)).
Proof.
  intros exclude include. split; [apply is_blocked_sound|].
  intros Hcfg. rewrite is_blocked_returns by done.
  unfold spec_classify. fold exclude include.
  split_and!; [done|..]; intros; simplify_eq/=; repeat f_equal;
    by destruct (spec_matches item exclude), (spec_matches item include).
Qed.
End rule_properties.

Section pipeline_properties.
Context {engine : Regex}.
Import FilterStatistics.
#[local] Arguments FilterStatistics.add : simpl never.

(** The ledger a run leaves is the ledger it was given after the calls
    the run made, whether or not the run was ended by an exception. *)
Lemma process_loop_stats items feed_config stats :
  Run.stats (process_loop items feed_config stats) =
    add_all stats (Run.calls (process_loop items feed_config stats)).
Proof.
  revert stats. induction items as [|item rest IH]; intros stats; simpl; [done|].
  destruct (is_blocked item feed_config) as [[]|]; simpl; [..|done];
    by rewrite IH.
Qed.

Lemma process_loop_compiles items feed_config stats :
  config_compiles feed_config →
  let passes item := spec_classify item (FeedConfig.exclude feed_config)
                                        (FeedConfig.include feed_config) in
  let r := process_loop items feed_config stats in
  Run.raised r = None ∧
  Run.calls r = (λ item, (item, passes item)) <$> items ∧
  Run.yielded r = filter (λ item, passes item = true) items.
Proof.
  intros Hcfg passes. revert stats.
  induction items as [|item rest IH]; intros stats; simpl; [done|].
  rewrite is_blocked_returns by done. fold (passes item).
  rewrite filter_cons.
  destruct (passes item) eqn:Hp; simpl.
  - by destruct (IH (add stats item true)) as (-> & -> & ->).
  - by destruct (IH (add stats item false)) as (-> & -> & ->).
Qed.

(** The last call that recorded a title, among the calls made for a
    sequence of entries with their classification, is the call for the
    last of these entries that carries the title. *)
Lemma last_call_classified (classify : FeedItem.t → bool) entries key :
  last_call key ((λ item, (item, classify item)) <$> entries) =
    (λ item, (item, classify item))
      <$> last (filter (λ item, FeedItem.title item = key) entries).
Proof.
  induction entries as [|x entries IH] using rev_ind; [done|].
  rewrite fmap_app, fmap_cons, fmap_nil, last_call_snoc, filter_app.
  cbn [fst]. rewrite filter_cons, filter_nil.
  destruct (decide (FeedItem.title x = key)).
  - by rewrite last_snoc.
  - by rewrite app_nil_r.
Qed.

(** [C4] Pipeline contract. For every input sequence of entries, every
    feed configuration whose patterns are regular expressions, and every
    ledger, the pipeline runs to the end without raising; it calls [add]
    exactly once per entry that survives de-duplication, in order, with
    the classification of that entry (passed and blocked entries alike,
    guid duplicates not at all); the ledger it leaves is the given ledger
    after exactly these calls; it yields the surviving entries classified
    as passed and only those, in the order they have after
    de-duplication. The entries that survive are, in the order of the
    input, the first entry for every guid of the input, so that no guid
    is recorded twice. The ledger it leaves holds, for every title that
    a surviving entry carries, the last surviving entry with that title,
    in [passed] when that entry passes and in [blocked] when it does not,
    and nothing for that title on the other side; every other title is
    as the given ledger had it. *)
Theorem pipeline_contract (items : list FeedItem.t)
    (feed_config : FeedConfig.t) (stats : FilterStatistics.t) :
  config_compiles feed_config →
  let survivors := FeedItem.unicalize items in
  let passes item := spec_classify item (FeedConfig.exclude feed_config)
                                        (FeedConfig.include feed_config) in
  let r := process_feed_items items feed_config stats in
  Run.raised r = None ∧
  Run.calls r = (λ item, (item, passes item)) <$> survivors ∧
  Run.stats r = add_all stats (Run.calls r) ∧
  Run.yielded r = filter (λ item, passes item = true) survivors ∧
  sublist (Run.yielded r) survivors ∧
  (NoDup (FeedItem.guid <$> survivors) ∧
   (∀ g, g ∈ FeedItem.guid <$> survivors ↔ g ∈ FeedItem.guid <$> items) ∧
   (∀ item, item ∈ survivors →
      FeedItem.first_with_guid (FeedItem.guid item) items = Some item) ∧
   sublist survivors items) ∧
  (NoDup (FeedItem.guid <$> (Run.calls r).*1) ∧
   ∀ item, item ∈ Run.yielded r ↔ item ∈ survivors ∧ passes item = true) ∧
  (∀ key,
     match last (filter (λ item, FeedItem.title item = key) survivors) with
     | Some item =>
         (if passes item then passed (Run.stats r) else blocked (Run.stats r))
           !! key = Some item ∧
         (if passes item then blocked (Run.stats r) else passed (Run.stats r))
           !! key = None
     | None =>
         passed (Run.stats r) !! key = passed stats !! key ∧
         blocked (Run.stats r) !! key = blocked stats !! key
     end).
Proof.
  intros Hcfg survivors passes r.
  destruct (process_loop_compiles survivors feed_config stats Hcfg)
    as (Hr & Hc & Hy).
  change (process_loop survivors feed_config stats) with r in Hr, Hc, Hy.
  assert (Run.stats r = add_all stats (Run.calls r)) as Hs
    by apply process_loop_stats.
  split_and!.
  - exact Hr.
  - exact Hc.
  - exact Hs.
  - exact Hy.
  - rewrite Hy. apply sublist_filter.
  - apply unicalize_from_NoDup.
  - intros g. unfold survivors, FeedItem.unicalize.
    rewrite unicalize_from_guids. set_solver.
  - intros item Hin. apply (unicalize_from_first ∅); [done|set_solver].
  - apply unicalize_from_sublist.
  - rewrite Hc.
    assert (∀ l : list FeedItem.t, ((λ item, (item, passes item)) <$> l).*1 = l)
      as ->; [|apply unicalize_from_NoDup].
    intros l. induction l as [|x l IH]; [done|].
    rewrite !fmap_cons. cbn [fst]. by rewrite IH.
  - intros item. by rewrite Hy, list_elem_of_filter, (comm and).
  - intros key. rewrite Hs, Hc.
    pose proof (add_all_lookup stats
                  ((λ item, (item, passes item)) <$> survivors) key) as H.
    rewrite last_call_classified in H.
    destruct (last (filter (λ item, FeedItem.title item = key) survivors))
      as [item|]; simpl in H; [|done].
    destruct (passes item); by destruct H.
Qed.
End pipeline_properties.

Section examples.
#[local] Existing Instance MiniRe.engine.
Import Sample.

Example fullmatch_is_not_a_search :
  re_fullmatch "New" "News" = Ok false ∧
  re_fullmatch "news" "News" = Ok true ∧
  re_fullmatch "spam.*" "SpamBot" = Ok true ∧
  re_fullmatch "*" "News" = Raise re_error.
Proof. by vm_compute. Qed.

Lemma tech_compiles : config_compiles tech.
Proof. repeat constructor; by eexists. Qed.

(** The entry of the specification's example is excluded by its creator
    and included by its title: it passes. *)
Lemma classification_example :
  config_compiles tech ∧
  spec_matches update (FeedConfig.exclude tech) = true ∧
  spec_matches update (FeedConfig.include tech) = true ∧
  is_blocked update tech = Ok false.
Proof.
  pose proof tech_compiles as Hc.
  refine (conj Hc (conj eq_refl (conj eq_refl _))).
  destruct (classification_include_override update tech) as [_ Hcompiles].
  destruct (Hcompiles Hc) as (_ & Hboth & _).
  apply Hboth; reflexivity.
Defined.

(** The example run: the mirror of [g1] is dropped, the update passes by
    the include rule, the advert is blocked, the essay passes. *)
Lemma pipeline_example :
  config_compiles tech ∧
  let survivors := FeedItem.unicalize items in
  let passes item := spec_classify item (FeedConfig.exclude tech)
                                        (FeedConfig.include tech) in
  let r := process_feed_items items tech FilterStatistics.empty in
  Run.raised r = None ∧
  Run.calls r = (λ item, (item, passes item)) <$> survivors ∧
  Run.stats r = FilterStatistics.add_all FilterStatistics.empty (Run.calls r) ∧
  Run.yielded r = filter (λ item, passes item = true) survivors ∧
  sublist (Run.yielded r) survivors ∧
  (NoDup (FeedItem.guid <$> survivors) ∧
   (∀ g, g ∈ FeedItem.guid <$> survivors ↔ g ∈ FeedItem.guid <$> items) ∧
   (∀ item, item ∈ survivors →
      FeedItem.first_with_guid (FeedItem.guid item) items = Some item) ∧
   sublist survivors items) ∧
  (NoDup (FeedItem.guid <$> (Run.calls r).*1) ∧
   ∀ item, item ∈ Run.yielded r ↔ item ∈ survivors ∧ passes item = true) ∧
  (∀ key,
     match last (filter (λ item, FeedItem.title item = key) survivors) with
     | Some item =>
         (if passes item
          then FilterStatistics.passed (Run.stats r)
          else FilterStatistics.blocked (Run.stats r)) !! key = Some item ∧
         (if passes item
          then FilterStatistics.blocked (Run.stats r)
          else FilterStatistics.passed (Run.stats r)) !! key = None
     | None =>
         FilterStatistics.passed (Run.stats r) !! key
           = FilterStatistics.passed FilterStatistics.empty !! key ∧
         FilterStatistics.blocked (Run.stats r) !! key
           = FilterStatistics.blocked FilterStatistics.empty !! key
     end).
Proof.
  refine (conj tech_compiles _).
  exact (pipeline_contract items tech FilterStatistics.empty tech_compiles).
Defined.

Example pipeline_example_run :
  let r := process_feed_items items tech FilterStatistics.empty in
  Run.yielded r = [update; essay] ∧
  Run.calls r = [(update, true); (advert, false); (essay, true)] ∧
  Run.raised r = None.
Proof. by vm_compute. Qed.

(** The ledger that the run leaves: the update and the essay passed, the
    advert blocked, and no record of the second entry with guid [g1]. *)
Example pipeline_example_ledger :
  let r := process_feed_items items tech FilterStatistics.empty in
  FilterStatistics.passed (Run.stats r) !! "Important Update" = Some update ∧
  FilterStatistics.blocked (Run.stats r) !! "Important Update" = None ∧
  FilterStatistics.blocked (Run.stats r) !! "Buy now" = Some advert ∧
  FilterStatistics.passed (Run.stats r) !! "Buy now" = None ∧
  FilterStatistics.passed (Run.stats r) !! "On parsers" = Some essay ∧
  FilterStatistics.passed (Run.stats r) !! "Important Update (mirror)" = None ∧
  FilterStatistics.blocked (Run.stats r) !! "Important Update (mirror)" = None.
Proof. by vm_compute. Qed.
End examples.

Section malformed_patterns.
Context {engine : Regex}.

Lemma re_fullmatch_invalid pattern v :
  re_compile pattern = None → re_fullmatch pattern v = Raise re_error.
Proof. intros Hp. unfold re_fullmatch. by rewrite Hp. Qed.

Lemma check_filters_invalid_title pattern item category creator rest :
  re_compile pattern = None →
  check_filters item (FilterConfig.mk (Some pattern) category creator :: rest)
    = Raise re_error.
Proof.
  intros Hp. simpl. unfold filter_matches. simpl.
  by rewrite re_fullmatch_invalid.
Qed.

(** [C8, as amended] A pattern that does not compile is not detected
    when the configuration is loaded: [load_config] returns every decoded
    document as it is, patterns included. It is detected when a rule is
    evaluated: every application of the pattern raises [re.error], so
    [check_filters] raises on every entry when the first rule has such a
    title pattern, and a pipeline run over a non-empty input then ends at
    the first entry with that error, having recorded and yielded
    nothing. *)
Theorem invalid_pattern_raises_on_evaluation (pattern : string) :
  re_compile pattern = None →
  (∀ decoded, ∃ config,
      load_config decoded = Ok config ∧ FeedsConfig.feeds config = decoded) ∧
  (∀ value, re_fullmatch pattern value = Raise re_error) ∧
  (∀ item category creator rest,
      check_filters item (FilterConfig.mk (Some pattern) category creator :: rest)
        = Raise re_error) ∧
  (∀ item items feed_config stats category creator rest,
      FeedConfig.exclude feed_config
        = FilterConfig.mk (Some pattern) category creator :: rest →
      let r := process_feed_items (item :: items) feed_config stats in
      Run.raised r = Some re_error ∧ Run.calls r = [] ∧
      Run.yielded r = [] ∧ Run.stats r = stats).
Proof.
  intros Hp. split_and!.
  - intros decoded. by eexists.
  - intros value. by apply re_fullmatch_invalid.
  - intros. by apply check_filters_invalid_title.
  - intros item items feed_config stats category creator rest Hex r.
    unfold r, process_feed_items, FeedItem.unicalize. simpl.
    rewrite decide_False by set_solver. simpl.
    unfold is_blocked. rewrite Hex.
    by rewrite check_filters_invalid_title.
Qed.
End malformed_patterns.

Section malformed_patterns_example.
#[local] Existing Instance MiniRe.engine.
Import Sample.

(** The claim of the specification fails on the feed [broken]: its
    pattern [*] does not compile, the configuration is loaded all the
    same, and rule evaluation raises the compilation error. *)
Lemma load_config_keeps_invalid_pattern :
  "*" ∈ feed_patterns broken ∧ re_compile "*" = None ∧
  load_config [broken] = Ok (FeedsConfig.mk [broken]) ∧
  check_filters update (FeedConfig.exclude broken) = Raise re_error ∧
  Run.raised (process_feed_items items broken FilterStatistics.empty)
    = Some re_error.
Proof. split_and!; [by left|reflexivity..]. Qed.

Lemma invalid_pattern_example :
  re_compile "*" = None ∧
  check_filters update (FeedConfig.exclude broken) = Raise re_error.
Proof.
  refine (conj eq_refl _).
  destruct (invalid_pattern_raises_on_evaluation "*" eq_refl) as (_ & _ & Hc & _).
  apply Hc.
Defined.
End malformed_patterns_example.


Section views.
Import FilterStatistics.

(** *** Counting *)

Lemma count_of_counter_add label l counts :
  count_of l (counter_add label counts) =
    count_of l counts + (if decide (label = l) then 1 else 0).
Proof.
  induction counts as [|[k n] rest IH]; simpl.
  - case_decide; lia.
  - destruct (decide (k = label)) as [->|Hk]; simpl.
    + case_decide; lia.
    + destruct (decide (k = l)) as [->|?]; [|done].
      rewrite decide_False by congruence. lia.
Qed.

Lemma counter_add_keys label counts :
  (counter_add label counts).*1 =
    if decide (label ∈ counts.*1) then counts.*1 else counts.*1 ++ [label].
Proof.
  induction counts as [|[k n] rest IH]; [done|].
  cbn [counter_add].
  destruct (decide (k = label)) as [->|Hk]; rewrite !fmap_cons; cbn [fst].
  - rewrite decide_True by left. done.
  - rewrite IH. destruct (decide (label ∈ rest.*1)) as [Hin|Hin].
    + rewrite decide_True by (by right). done.
    + rewrite decide_False; [done|]. rewrite elem_of_cons. naive_solver.
Qed.

Lemma counter_add_NoDup label counts :
  NoDup counts.*1 → NoDup (counter_add label counts).*1.
Proof.
  intros Hnd. rewrite counter_add_keys. case_decide; [done|].
  apply NoDup_app. split_and!; [done| |apply NoDup_singleton].
  intros x Hx ->%list_elem_of_singleton. done.
Qed.

Lemma counter_add_positive label counts :
  Forall (λ kn, 0 < kn.2) counts →
  Forall (λ kn, 0 < kn.2) (counter_add label counts).
Proof.
  induction 1 as [|[k n] rest Hn Hrest IH]; cbn [counter_add].
  - repeat constructor.
  - cbn [snd] in Hn. destruct (decide (k = label)); constructor; cbn [snd]; try done; lia.
Qed.

Lemma count_of_elem_of label n counts :
  NoDup counts.*1 → Forall (λ kn, 0 < kn.2) counts →
  (label, n) ∈ counts ↔ 0 < n ∧ n = count_of label counts.
Proof.
  induction counts as [|[k m] rest IH].
  - rewrite elem_of_nil. simpl. lia.
  - rewrite fmap_cons, NoDup_cons, Forall_cons, elem_of_cons. cbn [fst snd count_of].
    intros [Hk Hnd] [Hm Hpos]. destruct (decide (k = label)) as [Hkl|Hkl].
    + subst k. split.
      * intros [[= ->]|Hin]; [done|].
        destruct Hk. apply list_elem_of_fmap. by exists (label, n).
      * intros [_ ->]. by left.
    + rewrite <-IH by done. split; [|by right].
      intros [[= ??]|?]; [congruence|done].
Qed.

Lemma Counter_invariant labels :
  NoDup (Counter labels).*1 ∧
  Forall (λ kn, 0 < kn.2) (Counter labels) ∧
  ∀ l, count_of l (Counter labels) = occurrences l labels.
Proof.
  unfold Counter, occurrences.
  induction labels as [|label labels (Hnd & Hpos & Hcount)] using rev_ind.
  - split_and!; [constructor..|done].
  - rewrite foldl_app. simpl. split_and!.
    + by apply counter_add_NoDup.
    + by apply counter_add_positive.
    + intros l. rewrite count_of_counter_add, Hcount.
      rewrite filter_app, length_app, filter_cons, filter_nil.
      by case_decide.
Qed.

(** [Counter] holds exactly the labels that occur, each with the number
    of its occurrences. *)
Lemma Counter_spec labels label n :
  (label, n) ∈ Counter labels ↔ 0 < n ∧ n = occurrences label labels.
Proof.
  destruct (Counter_invariant labels) as (Hnd & Hpos & Hcount).
  by rewrite count_of_elem_of, Hcount.
Qed.

(** *** Sorting *)

Lemma ltb_lt x y : String.ltb x y = true ↔ String_as_OT.lt x y.
Proof.
  rewrite <-String_as_OT.cmp_lt. unfold String.ltb, String_as_OT.cmp.
  by destruct (String.compare x y).
Qed.

Lemma ltb_trans x y z :
  String.ltb x y = true → String.ltb y z = true → String.ltb x z = true.
Proof. rewrite !ltb_lt. apply String_as_OT.lt_trans. Qed.

Lemma ltb_total x y :
  x ≠ y → String.ltb x y = false → String.ltb y x = true.
Proof.
  intros Hne. unfold String.ltb.
  rewrite (String.compare_antisym y x).
  destruct (String.compare x y) eqn:Hc; simpl; try done.
  by apply String.compare_eq_iff in Hc.
Qed.

Lemma precedes_trans a b c : precedes a b → precedes b c → precedes a c.
Proof.
  unfold precedes. intros [?|[? Hab]] [?|[? Hbc]]; try (left; lia).
  right. split; [lia|]. by eapply ltb_trans.
Qed.

(** Of two different pairs one precedes the other, as [<] tells. *)
Lemma tuple_lt_total (x y : nat * string) :
  x ≠ y →
  (tuple_lt y x = true ∧ precedes x y) ∨ (tuple_lt y x = false ∧ precedes y x).
Proof.
  destruct x as [nx lx], y as [ny ly]. intros Hne.
  unfold tuple_lt, precedes. simpl.
  destruct (decide (ny = nx)) as [->|Hn].
  - destruct (String.ltb ly lx) eqn:Hlt; [left|right]; (split; [done|]).
    + by right.
    + right. split; [done|]. apply ltb_total; congruence.
  - destruct (ny <? nx) eqn:Hlt; [left|right]; (split; [done|]); left.
    + by apply Nat.ltb_lt.
    + apply Nat.ltb_ge in Hlt. lia.
Qed.

Lemma insert_reverse_sorted (x : nat * string) sorted :
  x ∉ sorted → StronglySorted precedes sorted →
  insert_reverse x sorted ≡ₚ x :: sorted ∧
  StronglySorted precedes (insert_reverse x sorted).
Proof.
  induction sorted as [|y rest IH]; intros Hnin Hsorted.
  - split; [done|]. repeat constructor.
  - apply not_elem_of_cons in Hnin as [Hne Hnin].
    apply StronglySorted_inv in Hsorted as [Hsorted Hall].
    cbn [insert_reverse].
    destruct (tuple_lt_total x y Hne) as [[-> Hp]|[-> Hp]].
    + split; [done|].
      constructor; [by constructor|]. constructor; [done|].
      eapply Forall_impl; [done|]. intros z Hz. by eapply precedes_trans.
    + destruct (IH Hnin Hsorted) as (Hperm & Hv).
      split; [rewrite Hperm; apply perm_swap|].
      constructor; [done|]. rewrite Hperm. by constructor.
Qed.

Lemma sorted_reverse_sorted (tuples : list (nat * string)) :
  NoDup tuples →
  sorted_reverse tuples ≡ₚ tuples ∧
  StronglySorted precedes (sorted_reverse tuples).
Proof.
  induction tuples as [|x rest IH]; intros Hnd.
  - split; [done|constructor].
  - apply NoDup_cons in Hnd as [Hnin Hnd].
    destruct (IH Hnd) as (Hperm & Hsorted). cbn [sorted_reverse].
    destruct (insert_reverse_sorted x (sorted_reverse rest)) as (Hw & Hsw);
      [by rewrite Hperm|done|].
    split; [|done]. by rewrite Hw, Hperm.
Qed.

(** *** The views *)

Lemma counted_spec labels :
  is_view (λ label, occurrences label labels) (counted labels).
Proof.
  unfold counted.
  set (tuples := (λ kc : string * nat, (kc.2, kc.1)) <$> Counter labels).
  destruct (sorted_reverse_sorted tuples) as (Hperm & Hsorted).
  - apply (NoDup_fmap_1 snd). unfold tuples. rewrite <-list_fmap_compose.
    apply (Counter_invariant labels).
  - split; [done|]. intros n label. rewrite Hperm, <-Counter_spec.
    unfold tuples. rewrite list_elem_of_fmap. split.
    + intros ([l m] & [= -> ->] & Hin). done.
    + intros Hin. by exists (label, n).
Qed.

Lemma occurrences_bind {A} label (f : A → list string) (l : list A) :
  occurrences label (l ≫= f) = sum_list ((λ x, occurrences label (f x)) <$> l).
Proof.
  unfold occurrences. induction l as [|x l IH]; [done|].
  rewrite bind_cons, filter_app, length_app, IH. done.
Qed.

Lemma occurrences_fmap {A} label (f : A → string) (l : list A) :
  occurrences label (f <$> l) = length (filter (λ x, f x = label) l).
Proof.
  unfold occurrences. induction l as [|x l IH]; [done|].
  rewrite fmap_cons, !filter_cons. case_decide; simpl; by rewrite IH.
Qed.

Lemma categories_view d :
  is_view (category_total d) (counted (values d ≫= FeedItem.categories)).
Proof.
  destruct (counted_spec (values d ≫= FeedItem.categories)) as (Hs & Hm).
  split; [done|]. intros n label. rewrite Hm.
  unfold category_total. by rewrite occurrences_bind.
Qed.

Lemma creators_view d :
  is_view (creator_total d) (counted (FeedItem.creator <$> values d)).
Proof.
  destruct (counted_spec (FeedItem.creator <$> values d)) as (Hs & Hm).
  split; [done|]. intros n label. rewrite Hm.
  unfold creator_total. by rewrite occurrences_fmap.
Qed.

(** The entries that a view counts are the entries that the dictionary
    holds under some title at the time of the call. *)
Lemma elem_of_values d item :
  item ∈ values d ↔ ∃ key, d !! key = Some item.
Proof.
  unfold values. rewrite list_elem_of_fmap. split.
  - intros ([key v] & -> & Hin). exists key. by apply elem_of_map_to_list.
  - intros [key Hkey]. exists (key, item). split; [done|].
    by apply elem_of_map_to_list.
Qed.

(** [C5] Aggregated views. For every ledger state, [passed_categories]
    is the list of the pairs [(count, label)] in which every category
    label that occurs among the passed entries appears once, with the
    total number of its occurrences over the category lists of all
    entries currently in [passed] (an entry that lists the label twice
    counts twice); the list is in descending order of the pair
    [(count, label)]: larger counts first, equal counts by descending
    label. [blocked_categories] is the same over [blocked], and the two
    creator views count one per entry and creator. Each view is a function
    of the current ledger alone, over the entries its dictionary holds. *)
Theorem aggregated_views (self : FilterStatistics.t) :
  is_view (category_total (passed self)) (passed_categories self) ∧
  is_view (category_total (blocked self)) (blocked_categories self) ∧
  is_view (creator_total (passed self)) (passed_creators self) ∧
  is_view (creator_total (blocked self)) (blocked_creators self) ∧
  (∀ item, item ∈ values (passed self) ↔ ∃ key, passed self !! key = Some item) ∧
  (∀ item, item ∈ values (blocked self) ↔ ∃ key, blocked self !! key = Some item).
Proof.
  split_and!.
  - apply categories_view.
  - apply categories_view.
  - apply creators_view.
  - apply creators_view.
  - intros item. apply elem_of_values.
  - intros item. apply elem_of_values.
Qed.
End views.

Section views_example.
#[local] Existing Instance MiniRe.engine.
Import FilterStatistics Sample.

Example ledger_views_example :
  passed_categories ledger = [(2, "News"); (1, "Code")] ∧
  blocked_categories ledger = [(2, "Ads"); (1, "News")] ∧
  passed_creators ledger = [(1, "spambot"); (1, "alice")] ∧
  blocked_creators ledger = [(1, "SpamKing")].
Proof. by vm_compute. Qed.

Example counted_ties_by_descending_label :
  counted ["b"; "a"; "c"; "a"; "B"] = [(2, "a"); (1, "c"); (1, "b"); (1, "B")].
Proof. by vm_compute. Qed.
End views_example.

Section elements.
Import ET.

Lemma read_back_unfold t a x c :
  read_back (Elt t a x c) =
    let* a' := read_attrib a in
    let* x' := read_text x in
    let* c' := read_all c in
    Ok (Elt t a' x' c').
Proof. reflexivity. Qed.

Lemma read_all_cons e rest :
  read_all (e :: rest) =
    let* e' := read_back e in
    let* rest' := read_all rest in
    Ok (e' :: rest').
Proof. reflexivity. Qed.

Lemma read_attrib_inv a a' : read_attrib a = Ok a' → a' = a.
Proof. unfold read_attrib. case_match; congruence. Qed.

Lemma read_attrib_empty : read_attrib ∅ = Ok ∅.
Proof. unfold read_attrib. by rewrite map_to_list_empty. Qed.

Lemma read_attrib_singleton k v :
  xml_chars v = true → read_attrib {[k := v]} = Ok {[k := v]}.
Proof.
  intros Hv. unfold read_attrib. rewrite map_to_list_singleton. simpl.
  by rewrite Hv.
Qed.

Lemma read_text_plain s : plain s = true → read_text (Some s) = Ok (Some s).
Proof.
  unfold plain, read_text.
  intros [[Hne Hx]%andb_prop Heol%String.eqb_eq]%andb_prop.
  apply negb_true_iff in Hne. by rewrite Hne, Hx, Heol.
Qed.

(** Reading back keeps the tag and the attributes of an element and
    reads back its children one by one. *)
Lemma read_back_inv e e' :
  read_back e = Ok e' →
  tag e' = tag e ∧ attrib e' = attrib e ∧
  read_text (text e) = Ok (text e') ∧
  read_all (children e) = Ok (children e').
Proof.
  destruct e as [t a x c]. rewrite read_back_unfold.
  destruct (read_attrib a) as [a'|] eqn:Ha; [|done].
  destruct (read_text x) as [x'|] eqn:Hx; [|done].
  destruct (read_all c) as [c'|] eqn:Hc; [|done].
  simpl. intros [= <-]. simpl. by apply read_attrib_inv in Ha as ->.
Qed.

Lemma read_all_with_tag t l l' :
  read_all l = Ok l' → read_all (with_tag t l) = Ok (with_tag t l').
Proof.
  revert l'. induction l as [|e rest IH]; intros l'.
  - by intros [= <-].
  - rewrite read_all_cons.
    destruct (read_back e) as [e'|] eqn:He; [|done].
    destruct (read_all rest) as [rest'|] eqn:Hr; [|done].
    simpl. intros [= <-]. simpl.
    destruct (read_back_inv _ _ He) as (-> & _).
    destruct (String.eqb (tag e) t); [|by apply IH].
    rewrite read_all_cons, He. simpl. by rewrite (IH rest').
Qed.

Lemma read_all_length l l' : read_all l = Ok l' → length l' = length l.
Proof.
  revert l'. induction l as [|e rest IH]; intros l'.
  - by intros [= <-].
  - rewrite read_all_cons.
    destruct (read_back e) as [e'|]; [|done].
    destruct (read_all rest) as [rest'|]; [|done].
    simpl. intros [= <-]. simpl. by rewrite (IH rest').
Qed.

(** A child found after reading back is the reading of the child found
    before. *)
Lemma read_back_find e e' t :
  read_back e = Ok e' →
  match find e' t with
  | Some g' => ∃ g, find e t = Some g ∧ read_back g = Ok g'
  | None => find e t = None
  end.
Proof.
  intros (_ & _ & _ & Hc)%read_back_inv. unfold find, findall.
  apply (read_all_with_tag t) in Hc.
  destruct (with_tag t (children e)) as [|g rest].
  - injection Hc as <-. done.
  - rewrite read_all_cons in Hc.
    destruct (read_back g) as [g'|] eqn:Hg; [|done].
    destruct (read_all rest) as [rest'|]; [|done].
    simpl in Hc. injection Hc as <-. simpl. eauto.
Qed.

Lemma read_all_fixed l :
  Forall (λ e, read_back e = Ok e) l → read_all l = Ok l.
Proof.
  induction 1 as [|e rest He _ IH]; [done|].
  by rewrite read_all_cons, He, IH.
Qed.

Lemma with_tag_app t l1 l2 :
  with_tag t (l1 ++ l2) = with_tag t l1 ++ with_tag t l2.
Proof.
  induction l1 as [|e l1 IH]; [done|]. simpl.
  destruct (String.eqb (tag e) t); simpl; by rewrite IH.
Qed.

Lemma with_tag_text_elements t t' labels :
  with_tag t (text_element t' <$> labels) =
    if String.eqb t' t then text_element t' <$> labels else [].
Proof.
  induction labels as [|l labels IH].
  - simpl. by destruct (String.eqb t' t).
  - rewrite fmap_cons. cbn [with_tag tag text_element]. rewrite IH.
    by destruct (String.eqb t' t).
Qed.

(** *** Building an item *)

Lemma mapM_id_Some (l : list string) : mapM id (Some <$> l) = Some l.
Proof. by apply mapM_fmap_Some. Qed.

Lemma init_strs t g (p : ostr) l d pd cs c :
  FeedItem.init (Some t) (Some g) p (Some l) (Some d) (Some pd)
                (Some <$> cs) (Some c) =
    match p with
    | Some p => Ok (FeedItem.mk t g p l d pd cs c)
    | None => Raise ValidationError
    end.
Proof. unfold FeedItem.init. rewrite mapM_id_Some. by destruct p. Qed.

(** An item is built from strings only. *)
Lemma init_ok_inv t g p l d pd cs c fi :
  FeedItem.init t g p l d pd cs c = Ok fi →
  t = Some (FeedItem.title fi) ∧ g = Some (FeedItem.guid fi) ∧
  p = Some (FeedItem.guid_permalink fi) ∧ l = Some (FeedItem.link fi) ∧
  d = Some (FeedItem.description fi) ∧ pd = Some (FeedItem.pub_date fi) ∧
  cs = Some <$> FeedItem.categories fi ∧ c = Some (FeedItem.creator fi).
Proof.
  unfold FeedItem.init.
  destruct t, g, p, l, d, pd, (mapM id cs) as [cs'|] eqn:Hcs, c; try done.
  intros [= <-]. simpl. split_and!; try done.
  apply mapM_Some in Hcs. clear -Hcs.
  induction Hcs as [|x y l k Hxy _ IH]; [done|].
  simpl in Hxy. rewrite fmap_cons. congruence.
Qed.

Lemma init_raises t g p l d pd cs c e :
  FeedItem.init t g p l d pd cs c = Raise e → e = ValidationError.
Proof.
  unfold FeedItem.init.
  destruct t, g, p, l, d, pd, (mapM id cs), c; try done; by intros [= <-].
Qed.

(** The item expression by cases: with the six sub-elements found and a
    text in the link it builds the item from what it read, otherwise
    reading [.text] (or cleaning up a missing link text) raises. *)
Lemma parse_item_cases item :
  match find item "title", find item "guid", find item "link",
        find item "description", find item "pubDate", find item dc_creator with
  | Some t, Some g, Some l, Some d, Some p, Some c =>
      match text l with
      | Some s =>
          parse_item item =
            FeedItem.init (text t) (text g) (attrib g !! "isPermaLink")
              (Some (cleanup_link s)) (text d) (text p)
              (text <$> findall item "category") (text c)
      | None => parse_item item = Raise AttributeError
      end
  | _, _, _, _, _, _ => parse_item item = Raise AttributeError
  end.
Proof.
  unfold parse_item.
  destruct (find item "title"); [|done].
  destruct (find item "guid"); [|done].
  destruct (find item "link") as [l|]; [|done].
  destruct (find item "description");
    [|by cbn [text_of attrib_get_of bind]; destruct (text l)].
  destruct (find item "pubDate");
    [|by cbn [text_of attrib_get_of bind]; destruct (text l)].
  destruct (find item dc_creator);
    [|by cbn [text_of attrib_get_of bind]; destruct (text l)].
  cbn [text_of attrib_get_of bind]. by destruct (text l).
Qed.

Lemma parse_item_raises item e :
  parse_item item = Raise e → e = AttributeError ∨ e = ValidationError.
Proof.
  pose proof (parse_item_cases item) as Hcases.
  destruct (find item "title"); [|left; congruence].
  destruct (find item "guid"); [|left; congruence].
  destruct (find item "link") as [l|]; [|left; congruence].
  destruct (find item "description"); [|left; congruence].
  destruct (find item "pubDate"); [|left; congruence].
  destruct (find item dc_creator); [|left; congruence].
  destruct (text l); [|left; congruence].
  rewrite Hcases. intros ->%init_raises. by right.
Qed.

Lemma parse_item_ok_inv item fi :
  parse_item item = Ok fi →
  (∀ t, t ∈ mandatory_tags → ∃ e, find item t = Some e ∧ is_Some (text e)) ∧
  (∃ g, find item "guid" = Some g ∧
        attrib g !! "isPermaLink" = Some (FeedItem.guid_permalink fi)) ∧
  text <$> findall item "category" = Some <$> FeedItem.categories fi.
Proof.
  pose proof (parse_item_cases item) as Hcases.
  destruct (find item "title") as [t|] eqn:H1; [|congruence].
  destruct (find item "guid") as [g|] eqn:H2; [|congruence].
  destruct (find item "link") as [l|] eqn:H3; [|congruence].
  destruct (find item "description") as [d|] eqn:H4; [|congruence].
  destruct (find item "pubDate") as [p|] eqn:H5; [|congruence].
  destruct (find item dc_creator) as [c|] eqn:H6; [|congruence].
  destruct (text l) as [s|] eqn:Hl; [|congruence].
  rewrite Hcases. intros (Ht & Hg & Hp & _ & Hd & Hpd & Hcs & Hc)%init_ok_inv.
  split_and!; [|by exists g|done].
  intros tag Htag. unfold mandatory_tags in Htag.
  repeat (apply elem_of_cons in Htag as [->|Htag];
          [eexists; split; [done|]; by eexists|]).
  by apply elem_of_nil in Htag.
Qed.

Lemma parse_item_missing item t :
  t ∈ mandatory_tags → find item t = None →
  parse_item item = Raise AttributeError.
Proof.
  intros Ht Hnone. pose proof (parse_item_cases item) as Hcases.
  unfold mandatory_tags in Ht.
  repeat (apply elem_of_cons in Ht as [->|Ht];
          [rewrite Hnone in Hcases;
           by repeat (done || match type of Hcases with
                              | match ?x with _ => _ end => destruct x
                              end)|]).
  by apply elem_of_nil in Ht.
Qed.

Lemma parse_item_complete item :
  complete_item item →
  ∃ fi, parse_item item = Ok fi ∧
        text <$> findall item "category" = Some <$> FeedItem.categories fi.
Proof.
  intros (Hall & Hattr & Hcats).
  pose proof (parse_item_cases item) as Hcases.
  destruct (Hall "title") as (t & Ht & [ts Hts]); [set_solver|].
  destruct (Hall "guid") as (g & Hg & [gs Hgs]); [set_solver|].
  destruct (Hall "link") as (l & Hl & [ls Hls]); [set_solver|].
  destruct (Hall "description") as (d & Hd & [ds Hds]); [set_solver|].
  destruct (Hall "pubDate") as (p & Hp & [ps Hps]); [set_solver|].
  destruct (Hall dc_creator) as (c & Hc & [cs Hcs]); [set_solver|].
  destruct (Hattr g Hg) as [flag Hflag].
  rewrite Ht, Hg, Hl, Hd, Hp, Hc, Hls in Hcases.
  assert (∃ labels, text <$> findall item "category" = Some <$> labels)
    as [labels Hlabels].
  { clear -Hcats. induction Hcats as [|e rest [s Hs] _ [labels IH]].
    - by exists [].
    - exists (s :: labels). by rewrite !fmap_cons, Hs, IH. }
  rewrite Hts, Hgs, Hflag, Hds, Hps, Hcs, Hlabels, init_strs in Hcases.
  eexists. split; [done|]. done.
Qed.

(** *** What the parser finds in a serialized item *)

Lemma attrib_dump_guid item :
  attrib (dump_guid item) !! "isPermaLink" = written_permalink item.
Proof.
  unfold dump_guid, written_permalink. cbn [attrib].
  destruct (truthy (FeedItem.guid_permalink item)); [apply lookup_singleton_eq|done].
Qed.

Lemma find_dump_item item :
  find (dump_item item) "title"
    = Some (text_element "title" (Some (FeedItem.title item))) ∧
  find (dump_item item) "guid" = Some (dump_guid item) ∧
  find (dump_item item) "link"
    = Some (text_element "link" (Some (FeedItem.link item))) ∧
  find (dump_item item) "description"
    = Some (text_element "description" (Some (FeedItem.description item))) ∧
  find (dump_item item) "pubDate"
    = Some (text_element "pubDate" (Some (FeedItem.pub_date item))) ∧
  find (dump_item item) dc_creator
    = Some (text_element dc_creator (Some (FeedItem.creator item))) ∧
  findall (dump_item item) "category"
    = (λ category, text_element "category" (Some category))
        <$> FeedItem.categories item.
Proof.
  unfold find, findall, dump_item. cbn [children].
  rewrite (list_fmap_compose Some (text_element "category")).
  rewrite !with_tag_app, !with_tag_text_elements.
  split_and!; try reflexivity.
  simpl. by rewrite app_nil_r.
Qed.

(** Parsing an item element as the serializer builds it, before it is
    written: the item with its link cleaned up when the permalink flag
    was written, a validation error when it was not. *)
Lemma parse_item_dump_item item :
  parse_item (dump_item item) =
    if truthy (FeedItem.guid_permalink item) then Ok (with_clean_link item)
    else Raise ValidationError.
Proof.
  pose proof (parse_item_cases (dump_item item)) as Hcases.
  destruct (find_dump_item item) as (H1 & H2 & H3 & H4 & H5 & H6 & H7).
  rewrite H1, H2, H3, H4, H5, H6, H7 in Hcases.
  cbn [text text_element] in Hcases.
  rewrite attrib_dump_guid in Hcases.
  replace (text (dump_guid item)) with (Some (FeedItem.guid item)) in Hcases by done.
  rewrite <-list_fmap_compose in Hcases.
  rewrite (list_fmap_ext _ Some (FeedItem.categories item)) in Hcases by done.
  rewrite init_strs in Hcases. rewrite Hcases. unfold written_permalink.
  by destruct (truthy (FeedItem.guid_permalink item)).
Qed.

(** *** Serializing, then parsing *)

Lemma read_all_Forall2 l l' :
  read_all l = Ok l' → Forall2 (λ e e', read_back e = Ok e') l l'.
Proof.
  revert l'. induction l as [|e rest IH]; intros l'.
  - intros [= <-]. constructor.
  - rewrite read_all_cons.
    destruct (read_back e) as [e'|] eqn:He; [|done].
    destruct (read_all rest) as [rest'|] eqn:Hr; [|done].
    simpl. intros [= <-]. constructor; [done|by apply IH].
Qed.

Lemma with_tag_all t l : Forall (λ e, tag e = t) l → with_tag t l = l.
Proof.
  induction 1 as [|e rest He _ IH]; [done|]. simpl.
  by rewrite He, String.eqb_refl, IH.
Qed.

(** Parsing a serialized feed: either the written document is
    ill-formed and nothing is yielded, or the loop of the parser runs over
    the item elements read back from the serialized items. *)
Lemma parse_feed_dump_feed items :
  match read_all (dump_item <$> items) with
  | Ok items' => parse_feed (dump_feed items) = parse_items items'
  | Raise e => parse_feed (dump_feed items) = Parsed.mk [] (Some e)
  end.
Proof.
  unfold parse_feed, dump_feed, tostring, fromstring.
  rewrite read_back_unfold, read_attrib_empty. cbn [bind read_text].
  rewrite read_all_cons.
  replace (read_back (text_element "title" (Some "habrss feed")))
    with (Ok (text_element "title" (Some "habrss feed")))
    by (by unfold text_element; rewrite read_back_unfold, read_attrib_empty).
  cbn [bind]. rewrite read_all_cons, read_back_unfold, read_attrib_empty.
  cbn [bind read_text].
  destruct (read_all (dump_item <$> items)) as [items'|e] eqn:Hitems; [|done].
  cbn [bind read_all]. unfold findall_path, findall. simpl.
  rewrite app_nil_r. f_equal. apply with_tag_all.
  apply read_all_Forall2 in Hitems. apply Forall2_fmap_l in Hitems.
  eapply Forall2_Forall_r; [done|]. apply Forall_forall.
  intros item _ item' Hread. by destruct (read_back_inv _ _ Hread) as (-> & _).
Qed.

(** The permalink flag that the parser reads from a serialized item is
    the flag that was written: an item is built only when one was. *)
Lemma parse_item_read_back_permalink item item' fi :
  read_back (dump_item item) = Ok item' → parse_item item' = Ok fi →
  written_permalink item = Some (FeedItem.guid_permalink fi).
Proof.
  intros Hread (_ & (g' & Hg' & Hflag) & _)%parse_item_ok_inv.
  pose proof (read_back_find _ _ "guid" Hread) as Hguid.
  rewrite Hg' in Hguid. destruct Hguid as (g & Hg & Hread').
  destruct (find_dump_item item) as (_ & Hfind & _).
  rewrite Hfind in Hg. injection Hg as <-.
  destruct (read_back_inv _ _ Hread') as (_ & Ha & _).
  by rewrite <-attrib_dump_guid, <-Ha.
Qed.

(** An entry with a falsy permalink flag is not read back: whatever its
    other fields are, parsing its serialization yields nothing and ends
    with an exception. *)
Lemma parse_feed_dump_unflagged item :
  truthy (FeedItem.guid_permalink item) = false →
  ∃ e, parse_feed (dump_feed [item]) = Parsed.mk [] (Some e).
Proof.
  intros Hfalsy. pose proof (parse_feed_dump_feed [item]) as Hparse.
  destruct (read_all (dump_item <$> [item])) as [items'|e] eqn:Hitems; [|eauto].
  rewrite Hparse.
  apply read_all_Forall2 in Hitems. rewrite list_fmap_singleton in Hitems.
  apply Forall2_cons_inv_l in Hitems as (item' & rest & Hread & Hrest & ->).
  apply Forall2_nil_inv_l in Hrest as ->. simpl.
  destruct (parse_item item') as [fi|e] eqn:Hfi; [|eauto].
  pose proof (parse_item_read_back_permalink _ _ _ Hread Hfi) as Hflag.
  unfold written_permalink in Hflag. by rewrite Hfalsy in Hflag.
Qed.

(** *** Plain entries *)

Lemma plain_xml_chars s : plain s = true → xml_chars s = true.
Proof. unfold plain. by intros [[_ ?]%andb_prop _]%andb_prop. Qed.

Lemma plain_truthy s : plain s = true → truthy s = true.
Proof. unfold plain, truthy. by intros [[? _]%andb_prop _]%andb_prop. Qed.

Lemma read_back_plain_element t s :
  plain s = true →
  read_back (text_element t (Some s)) = Ok (text_element t (Some s)).
Proof.
  intros Hs. unfold text_element.
  by rewrite read_back_unfold, read_attrib_empty, read_text_plain.
Qed.

Lemma read_back_dump_guid item :
  plain (FeedItem.guid item) = true →
  plain (FeedItem.guid_permalink item) = true ∨
    truthy (FeedItem.guid_permalink item) = false →
  read_back (dump_guid item) = Ok (dump_guid item).
Proof.
  intros Hg Hflag. unfold dump_guid.
  rewrite read_back_unfold, (read_text_plain _ Hg).
  destruct Hflag as [Hp|Hfalsy].
  - rewrite (plain_truthy _ Hp).
    by rewrite read_attrib_singleton by (by apply plain_xml_chars).
  - by rewrite Hfalsy, read_attrib_empty.
Qed.

Lemma read_back_dump_item item :
  plain_fields item →
  plain (FeedItem.guid_permalink item) = true ∨
    truthy (FeedItem.guid_permalink item) = false →
  read_back (dump_item item) = Ok (dump_item item).
Proof.
  intros (Ht & Hg & Hl & Hd & Hpub & Hcat & Hcr) Hflag.
  unfold dump_item. rewrite read_back_unfold, read_attrib_empty.
  cbn [bind read_text]. rewrite read_all_fixed; [done|].
  rewrite !Forall_app, !Forall_cons, Forall_nil, Forall_fmap.
  split_and!; try (by apply read_back_plain_element); try done.
  - by apply read_back_dump_guid.
  - eapply Forall_impl; [done|]. intros v Hv. by apply read_back_plain_element.
Qed.



Lemma roundtrip_unflagged item :
  plain_fields item → truthy (FeedItem.guid_permalink item) = false →
  parse_feed (dump_feed [item]) = Parsed.mk [] (Some ValidationError).
Proof.
  intros Hplain Hfalsy. pose proof (parse_feed_dump_feed [item]) as Hparse.
  rewrite read_all_fixed in Hparse.
  - rewrite Hparse. simpl. by rewrite parse_item_dump_item, Hfalsy.
  - repeat constructor. apply read_back_dump_item; auto.
Qed.


Lemma with_clean_link_clean item : clean_link item → with_clean_link item = item.
Proof.
  intros [l Hl]. destruct item. unfold with_clean_link. simpl in *.
  rewrite Hl. by rewrite cleanup_link_idempotent.
Qed.

(** *** The loop of the parser *)

Lemma parse_items_raised l e :
  Parsed.raised (parse_items l) = Some e →
  e = AttributeError ∨ e = ValidationError.
Proof.
  induction l as [|item rest IH]; simpl; [done|].
  destruct (parse_item item) eqn:Hp; simpl; [done|].
  intros [= <-]. by apply parse_item_raises in Hp.
Qed.

(** The loop stops at the first item that raises: no entry is yielded
    for that item or for a later one. *)
Lemma parse_items_stops before item after e :
  parse_item item = Raise e →
  is_Some (Parsed.raised (parse_items (before ++ item :: after))) ∧
  length (Parsed.yielded (parse_items (before ++ item :: after))) ≤ length before ∧
  ∀ entries, Forall2 (λ it fi, parse_item it = Ok fi) before entries →
    parse_items (before ++ item :: after) = Parsed.mk entries (Some e).
Proof.
  intros Hitem. induction before as [|it before (IHr & IHl & IHe)]; simpl.
  - rewrite Hitem. simpl. split_and!; [by eexists|done|].
    by intros entries ->%Forall2_nil_inv_l.
  - destruct (parse_item it) as [fi|e'] eqn:Hit; simpl.
    + split_and!; [done|lia|].
      intros entries (fi' & entries' & Hfi & Hrest & ->)%Forall2_cons_inv_l.
      rewrite (IHe entries' Hrest). simpl. congruence.
    + split_and!; [by eexists|lia|].
      intros entries (fi' & entries' & Hfi & _)%Forall2_cons_inv_l. congruence.
Qed.
End elements.

Section parser_serializer.
Import ET.


(** [C9] Parser errors. In a document that parses, an item node that
    lacks one of the sub-elements title, guid, link, description, pubDate
    and creator makes the parser fail: reading [.text] off the missing
    sub-element raises (an [AttributeError], which nothing catches), no
    entry is produced for that item nor for any item after it, and the
    entries of the items before it are all that is yielded. Category
    sub-elements are optional: an item with the six sub-elements parses
    with the texts of its category sub-elements, however many. *)
Theorem parse_feed_missing_subelement (content : Document) (root : Element) :
  fromstring content = Ok root →
  (∀ before item after t,
      findall_path root "channel" "item" = before ++ item :: after →
      t ∈ mandatory_tags → find item t = None →
      parse_item item = Raise AttributeError ∧
      is_Some (Parsed.raised (parse_feed content)) ∧
      length (Parsed.yielded (parse_feed content)) ≤ length before ∧
      (∀ entries, Forall2 (λ it fi, parse_item it = Ok fi) before entries →
         parse_feed content = Parsed.mk entries (Some AttributeError))) ∧
  (∀ item,
      complete_item item →
      ∃ fi, parse_item item = Ok fi ∧
            text <$> findall item "category" = Some <$> FeedItem.categories fi).
Proof.
  intros Hroot. split.
  - intros before item after t Hitems Ht Hnone.
    pose proof (parse_item_missing item t Ht Hnone) as Hitem.
    unfold parse_feed. rewrite Hroot, Hitems.
    split; [done|]. by apply parse_items_stops.
  - intros item Hcomplete. by apply parse_item_complete.
Qed.

(** [C10, as amended] The permalink flag. The serializer puts the
    [isPermaLink] attribute on the guid element of an entry exactly when
    the [guid_permalink] of the entry is truthy, with that value. The
    parser reads [None] for the flag of an item whose guid element has no
    such attribute, and no item is built from it, the field being a
    string: the item expression raises, with a validation error when
    nothing else is missing. Hence, for an entry whose [guid_permalink] is
    the empty string, parsing the serialized entry yields no entry and
    ends with an exception, the validation error when the other fields are
    plain strings. *)
Theorem permalink_flag_edge_case :
  (∀ item,
      find (dump_item item) "guid" = Some (dump_guid item) ∧
      attrib (dump_guid item) !! "isPermaLink" = written_permalink item ∧
      (is_Some (attrib (dump_guid item) !! "isPermaLink") ↔
         truthy (FeedItem.guid_permalink item) = true)) ∧
  (∀ element g,
      find element "guid" = Some g → attrib g !! "isPermaLink" = None →
      attrib_get_of (find element "guid") "isPermaLink" = Ok None ∧
      (∃ e, parse_item element = Raise e) ∧
      ((∀ t, t ∈ mandatory_tags →
             ∃ e, find element t = Some e ∧ is_Some (text e)) →
       Forall (λ e, is_Some (text e)) (findall element "category") →
       parse_item element = Raise ValidationError)) ∧
  (∀ item,
      FeedItem.guid_permalink item = "" →
      (∃ e, parse_feed (dump_feed [item]) = Parsed.mk [] (Some e)) ∧
      (plain_fields item →
         parse_feed (dump_feed [item]) = Parsed.mk [] (Some ValidationError))).
Proof.
  split_and!.
  - intros item. split_and!.
    + by destruct (find_dump_item item) as (_ & ? & _).
    + apply attrib_dump_guid.
    + rewrite attrib_dump_guid. unfold written_permalink.
      destruct (truthy (FeedItem.guid_permalink item)).
      * by split; [|eexists].
      * by split; [intros []|].
  - intros element g Hg Hattr. split_and!.
    + by rewrite Hg, <-Hattr.
    + destruct (parse_item element) as [fi|e] eqn:Hfi; [|by exists e].
      apply parse_item_ok_inv in Hfi as (_ & (g' & Hg' & Hflag) & _).
      congruence.
    + intros Hall Hcats.
      pose proof (parse_item_cases element) as Hcases.
      destruct (Hall "title") as (t & Ht & [ts Hts]); [set_solver|].
      destruct (Hall "link") as (l & Hl & [ls Hls]); [set_solver|].
      destruct (Hall "description") as (d & Hd & [ds Hds]); [set_solver|].
      destruct (Hall "pubDate") as (p & Hp & [ps Hps]); [set_solver|].
      destruct (Hall dc_creator) as (c & Hc & [cs Hcs]); [set_solver|].
      rewrite Ht, Hg, Hl, Hd, Hp, Hc, Hls, Hattr in Hcases.
      rewrite Hcases. unfold FeedItem.init. rewrite Hts.
      by destruct (text g).
  - intros item Hflag.
    assert (truthy (FeedItem.guid_permalink item) = false) as Hfalsy
      by (by rewrite Hflag).
    split; [by apply parse_feed_dump_unflagged|].
    intros Hplain. by apply roundtrip_unflagged.
Qed.
End parser_serializer.

Section parser_examples.
Import ET Sample.

Example parse_upstream_items :
  parse_feed (feed_of [flagged_item; unflagged_item])
    = Parsed.mk [update; unflagged] None.
Proof. vm_compute. reflexivity. Qed.

Example roundtrip_cleans_link :
  parse_feed (dump_feed [tracked]) =
    Parsed.mk [FeedItem.mk "Release notes" "g4" "false" "https://example.com/d"
                 "What is new" "Thu, 04 Mar 2021" [] "bob"] None.
Proof. vm_compute. reflexivity. Qed.




(** A feed whose second item has no [pubDate]: the first item is
    yielded, then the parser raises. *)
Lemma missing_subelement_example :
  fromstring (feed_of [flagged_item; undated_item; flagged_item])
    = Ok (Elt "rss" ∅ None
            [Elt "channel" ∅ None [flagged_item; undated_item; flagged_item]]) ∧
  parse_feed (feed_of [flagged_item; undated_item; flagged_item])
    = Parsed.mk [update] (Some AttributeError).
Proof.
  assert (fromstring (feed_of [flagged_item; undated_item; flagged_item])
    = Ok (Elt "rss" ∅ None
            [Elt "channel" ∅ None [flagged_item; undated_item; flagged_item]]))
    as Hroot by (vm_compute; reflexivity).
  refine (conj Hroot _).
  destruct (parse_feed_missing_subelement _ _ Hroot) as [Hmissing _].
  destruct (Hmissing [flagged_item] undated_item [flagged_item] "pubDate")
    as (_ & _ & _ & Hrun).
  - vm_compute. reflexivity.
  - do 4 right. left.
  - vm_compute. reflexivity.
  - apply Hrun. constructor; [vm_compute; reflexivity|constructor].
Defined.

(** The claim of the specification fails on the item without the
    attribute and on the entry with the empty flag: no entry with [None]
    as its flag is produced, the parser raises. *)
Lemma missing_permalink_is_rejected :
  find flagless_item "guid" = Some (Elt "guid" ∅ (Some "g1") []) ∧
  parse_item flagless_item = Raise ValidationError ∧
  parse_feed (feed_of [flagless_item]) = Parsed.mk [] (Some ValidationError) ∧
  FeedItem.guid_permalink unflagged = "" ∧
  parse_feed (dump_feed [unflagged]) = Parsed.mk [] (Some ValidationError).
Proof. split_and!; vm_compute; reflexivity. Qed.

Lemma unflagged_plain : plain_fields unflagged.
Proof. repeat constructor. Qed.

Lemma permalink_flag_example :
  FeedItem.guid_permalink unflagged = "" ∧ plain_fields unflagged ∧
  parse_feed (dump_feed [unflagged]) = Parsed.mk [] (Some ValidationError).
Proof.
  refine (conj eq_refl (conj unflagged_plain _)).
  destruct permalink_flag_edge_case as (_ & _ & Hempty).
  destruct (Hempty unflagged eq_refl) as [_ Hplain].
  exact (Hplain unflagged_plain).
Defined.
End parser_examples.

(** * Further properties *)

Section dedup_merge.
Import FeedItem.

Lemma unicalize_from_fixed seen items :
  NoDup (guid <$> items) → (∀ g, g ∈ guid <$> items → g ∉ seen) →
  unicalize_from seen items = items.
Proof.
  revert seen. induction items as [|x items IH]; intros seen Hnd Hseen; [done|].
  simpl in *. apply NoDup_cons in Hnd as [Hx Hnd].
  destruct (decide (guid x ∈ seen)) as [Hin|_].
  - destruct (Hseen (guid x)); [left|done].
  - f_equal. apply IH; [done|]. intros g Hg.
    rewrite elem_of_union, elem_of_singleton. intros [->|Hs]; [done|].
    by apply (Hseen g); [right|].
Qed.

Lemma unicalize_from_union s1 s2 items :
  unicalize_from (s1 ∪ s2) items =
    filter (λ x, guid x ∉ s1) (unicalize_from s2 items).
Proof.
  revert s2. induction items as [|x items IH]; intros s2; [done|]. simpl.
  destruct (decide (guid x ∈ s2)) as [H2|H2].
  - rewrite decide_True by set_solver. apply IH.
  - rewrite filter_cons. destruct (decide (guid x ∈ s1)) as [H1|H1].
    + rewrite decide_True by set_solver.
      rewrite decide_False by (by intros []).
      rewrite <- IH. f_equal. set_solver.
    + rewrite decide_False by set_solver.
      rewrite decide_True by done.
      rewrite <- IH. do 2 f_equal. set_solver.
Qed.

Lemma unicalize_from_app seen a b :
  unicalize_from seen (a ++ b) =
    unicalize_from seen a
      ++ unicalize_from (list_to_set (guid <$> a) ∪ seen) b.
Proof.
  revert seen. induction a as [|x a IH]; intros seen; simpl.
  - f_equal. set_solver.
  - destruct (decide (guid x ∈ seen)) as [Hin|Hin].
    + rewrite IH. do 2 f_equal. set_solver.
    + simpl. rewrite IH. do 3 f_equal. set_solver.
Qed.

(** [X1] De-duplication changes nothing on a sequence without repeated
    guid, and only there; de-duplicating a second time changes nothing. *)
Theorem unicalize_idempotent (items : list FeedItem.t) :
  (unicalize items = items ↔ NoDup (guid <$> items)) ∧
  unicalize (unicalize items) = unicalize items.
Proof.
  split; [split|].
  - intros <-. apply unicalize_from_NoDup.
  - intros Hnd. apply unicalize_from_fixed; [done|]. set_solver.
  - apply unicalize_from_fixed; [apply unicalize_from_NoDup|]. set_solver.
Qed.

(** [X2] Merging sources: the de-duplicated concatenation of two
    sequences is the de-duplicated first sequence, followed by the
    entries of the de-duplicated second sequence whose guid the first
    sequence does not hold. An entry of an earlier source always wins
    over an entry of a later source with the same guid. *)
Theorem unicalize_merged_sources (a b : list FeedItem.t) :
  unicalize (a ++ b) =
    unicalize a ++ filter (λ x, guid x ∉ guid <$> a) (unicalize b).
Proof.
  unfold unicalize. rewrite unicalize_from_app. f_equal.
  rewrite unicalize_from_union. apply list_filter_iff.
  intros x. by rewrite elem_of_list_to_set.
Qed.
End dedup_merge.

Section ledger_more.
Import FilterStatistics.

Lemma ledger_eq (s1 s2 : t) :
  (∀ k, passed s1 !! k = passed s2 !! k ∧ blocked s1 !! k = blocked s2 !! k) →
  s1 = s2.
Proof.
  destruct s1 as [p1 b1], s2 as [p2 b2]. simpl. intros H.
  f_equal; apply map_eq; intros k; apply H.
Qed.

Lemma add_all_same_last_calls (self : t) calls calls' :
  (∀ key, last_call key calls = last_call key calls') →
  add_all self calls = add_all self calls'.
Proof.
  intros H. apply ledger_eq. intros k.
  pose proof (add_all_lookup self calls k) as H1.
  pose proof (add_all_lookup self calls' k) as H2.
  rewrite <- (H k) in H2.
  destruct (last_call k calls) as [[item p]|];
    destruct H1 as [-> ->], H2 as [-> ->]; done.
Qed.

Lemma add_all_replay (self : t) calls :
  add_all (add_all self calls) calls = add_all self calls.
Proof.
  apply ledger_eq. intros k.
  pose proof (add_all_lookup self calls k) as H1.
  pose proof (add_all_lookup (add_all self calls) calls k) as H2.
  destruct (last_call k calls) as [[item p]|];
    destruct H1 as [H1 H1'], H2 as [H2 H2']; by rewrite H2, H2'.
Qed.

Lemma last_call_Some key calls item p :
  last_call key calls = Some (item, p) →
  FeedItem.title item = key ∧ (item, p) ∈ calls.
Proof.
  unfold last_call. intros H%last_Some_elem_of.
  by apply list_elem_of_filter in H as [? ?].
Qed.

Lemma last_call_None key calls :
  last_call key calls = None ↔ key ∉ (λ c, FeedItem.title c.1) <$> calls.
Proof.
  unfold last_call. rewrite last_None, list_elem_of_fmap. split.
  - intros Hnil (c & -> & Hin).
    by apply (filter_nil_not_elem_of _ _ c) in Hnil.
  - intros Hnot. apply elem_of_nil_inv. intros c [Hc Hin]%list_elem_of_filter.
    apply Hnot. by exists c.
Qed.

(** [X3] The ledger that a sequence of [add] calls leaves depends only on
    the last call for every title: two sequences with the same last call
    for every title leave the same ledger, whatever the ledger they start
    from. In particular, making the same calls a second time leaves the
    ledger as it is. *)
Theorem ledger_last_calls_only (self : FilterStatistics.t)
    (calls : list (FeedItem.t * bool)) :
  (∀ calls', (∀ key, last_call key calls = last_call key calls') →
             add_all self calls = add_all self calls') ∧
  add_all (add_all self calls) calls = add_all self calls.
Proof.
  split; [intros calls'; apply add_all_same_last_calls|apply add_all_replay].
Qed.

Lemma add_all_empty_lookup calls key :
  let s := add_all empty calls in
  (∀ item, passed s !! key = Some item ↔ last_call key calls = Some (item, true)) ∧
  (∀ item, blocked s !! key = Some item ↔ last_call key calls = Some (item, false)).
Proof.
  intros s. pose proof (add_all_lookup empty calls key) as H. fold s in H.
  destruct (last_call key calls) as [[item p]|]; destruct H as [Hp Hb];
    rewrite Hp, Hb; [destruct p|]; simpl; try rewrite lookup_empty;
    split; intros item'; naive_solver.
Qed.

Lemma add_all_empty_dom calls :
  let s := add_all empty calls in
  dom (passed s) ## dom (blocked s) ∧
  dom (passed s) ∪ dom (blocked s)
    = list_to_set ((λ c, FeedItem.title c.1) <$> calls).
Proof.
  intros s. split.
  - intros key [x Hp]%elem_of_dom [y Hb]%elem_of_dom.
    apply (add_all_empty_lookup calls key) in Hp.
    apply (add_all_empty_lookup calls key) in Hb. congruence.
  - apply set_eq. intros key.
    rewrite elem_of_union, !elem_of_dom, elem_of_list_to_set.
    destruct (last_call key calls) as [[item p]|] eqn:Hl.
    + split; intros _.
      * destruct (decide (key ∈ (λ c, FeedItem.title c.1) <$> calls)); [done|].
        apply last_call_None in n. congruence.
      * destruct p; [left|right]; exists item;
          by apply (add_all_empty_lookup calls key).
    + pose proof Hl as Hn. apply last_call_None in Hn. split; [|done].
      intros [[x Hx]|[x Hx]]; apply (add_all_empty_lookup calls key) in Hx;
        congruence.
Qed.

(** [X4] The keys of the ledger are the titles of its entries. After any
    sequence of [add] calls on the empty ledger, an entry held under a
    key has that key as its title and was the subject of one of the
    calls; the keys of the two dictionaries together are exactly the
    titles recorded; and the ledger holds one entry per distinct title
    recorded, however many entries with that title were recorded. *)
Theorem ledger_one_entry_per_title (calls : list (FeedItem.t * bool)) :
  let s := add_all empty calls in
  let titles := (λ c, FeedItem.title c.1) <$> calls in
  (∀ key item, passed s !! key = Some item ∨ blocked s !! key = Some item →
     FeedItem.title item = key ∧ ∃ p, (item, p) ∈ calls) ∧
  (∀ key, is_Some (passed s !! key) ∨ is_Some (blocked s !! key) ↔ key ∈ titles) ∧
  size (passed s) + size (blocked s) = length (remove_dups titles).
Proof.
  intros s titles. destruct (add_all_empty_dom calls) as [Hdisj Hdom].
  fold s in Hdisj, Hdom. fold titles in Hdom. split_and!.
  - intros key item [H|H]; apply (add_all_empty_lookup calls key) in H;
      apply last_call_Some in H as [? ?]; eauto.
  - intros key. rewrite <- !elem_of_dom, <- elem_of_union, Hdom.
    apply elem_of_list_to_set.
  - rewrite <- !size_dom, <- size_union by done. rewrite Hdom.
    rewrite <- (size_list_to_set (C := gset string) (remove_dups titles))
      by apply NoDup_remove_dups.
    f_equal. apply set_eq. intros key.
    by rewrite !elem_of_list_to_set, elem_of_remove_dups.
Qed.
End ledger_more.

Section view_totals.
Import FilterStatistics.

Lemma sum_counter_add label counts :
  sum_list (counter_add label counts).*2 = S (sum_list counts.*2).
Proof.
  induction counts as [|[l n] counts IH]; [done|]. cbn [counter_add].
  case_decide; rewrite !fmap_cons; [done|].
  change (n + sum_list (counter_add label counts).*2 = S (n + sum_list counts.*2)).
  rewrite IH. lia.
Qed.

Lemma sum_Counter labels : sum_list (Counter labels).*2 = length labels.
Proof.
  unfold Counter. induction labels as [|l labels IH] using rev_ind; [done|].
  rewrite foldl_app, length_app. simpl. rewrite sum_counter_add, IH. lia.
Qed.

Lemma counted_total labels :
  sum_list (counted labels).*1 = length labels ∧
  NoDup (counted labels).*2 ∧
  ∀ label, label ∈ (counted labels).*2 ↔ label ∈ labels.
Proof.
  unfold counted.
  set (tuples := (λ kc : string * nat, (kc.2, kc.1)) <$> Counter labels).
  assert ((tuples.*2 = (Counter labels).*1) ∧ tuples.*1 = (Counter labels).*2)
    as [H2 H1].
  { unfold tuples. by rewrite <- !list_fmap_compose. }
  destruct (Counter_invariant labels) as (Hnd & Hpos & Hcount).
  destruct (sorted_reverse_sorted tuples) as (Hperm & _).
  { apply (NoDup_fmap_1 snd). by rewrite H2. }
  rewrite Hperm, H1, H2. split_and!; [apply sum_Counter|done|].
  intros label. rewrite Hperm, H2, list_elem_of_fmap. split.
  - intros ([l n] & -> & Hin). apply Counter_spec in Hin as [Hn ->]. simpl.
    unfold occurrences in Hn.
    destruct (filter (λ l0, l0 = l) labels) as [|x ?] eqn:Hf; [simpl in Hn; lia|].
    assert (x ∈ filter (λ l0, l0 = l) labels) as Hx by (rewrite Hf; left).
    by apply list_elem_of_filter in Hx as [-> ?].
  - intros Hin. exists (label, occurrences label labels). split; [done|].
    apply Counter_spec. split; [|done]. unfold occurrences.
    assert (label ∈ filter (λ l0, l0 = label) labels) as Hx
      by by apply list_elem_of_filter.
    destruct (filter (λ l0, l0 = label) labels); [by apply elem_of_nil in Hx|].
    simpl. lia.
Qed.

Lemma length_values d : length (values d) = size d.
Proof. unfold values. by rewrite length_fmap, length_map_to_list. Qed.

Lemma length_bind_categories (l : list FeedItem.t) :
  length (l ≫= FeedItem.categories)
    = sum_list ((λ item, length (FeedItem.categories item)) <$> l).
Proof.
  induction l as [|x l IH]; [done|].
  by rewrite bind_cons, length_app, IH.
Qed.

(** [X5] Totals of the views. For every ledger state, the counts of a
    creators view add up to the number of entries that the dictionary
    holds; the counts of a categories view add up to the number of
    category labels that these entries list; and no label has more than
    one row in a view. *)
Theorem view_counts_add_up (self : FilterStatistics.t) :
  (sum_list (passed_creators self).*1 = size (passed self) ∧
   sum_list (blocked_creators self).*1 = size (blocked self)) ∧
  (sum_list (passed_categories self).*1
     = sum_list ((λ item, length (FeedItem.categories item))
                   <$> values (passed self)) ∧
   sum_list (blocked_categories self).*1
     = sum_list ((λ item, length (FeedItem.categories item))
                   <$> values (blocked self))) ∧
  NoDup (passed_creators self).*2 ∧ NoDup (blocked_creators self).*2 ∧
  NoDup (passed_categories self).*2 ∧ NoDup (blocked_categories self).*2.
Proof.
  unfold passed_creators, blocked_creators, passed_categories,
    blocked_categories.
  split_and!;
    first [ apply counted_total
          | rewrite (proj1 (counted_total _)), length_fmap; apply length_values
          | rewrite (proj1 (counted_total _)); apply length_bind_categories ].
Qed.
End view_totals.

Section rule_composition.
Context {engine : Regex}.

Lemma check_filters_app item rules1 rules2 :
  check_filters item (rules1 ++ rules2) =
    let* m := check_filters item rules1 in
    if m then Ok true else check_filters item rules2.
Proof.
  induction rules1 as [|filt rules1 IH]; [done|]. cbn [app check_filters].
  destruct (filter_matches item filt) as [[]|e]; simpl; [done|exact IH|done].
Qed.

Lemma check_filters_matched item rules1 rules2 :
  check_filters item rules1 = Ok true →
  check_filters item (rules1 ++ rules2) = Ok true.
Proof. intros H. by rewrite check_filters_app, H. Qed.

Lemma filter_matches_no_pattern item :
  filter_matches item (FilterConfig.mk None None None) = Ok false.
Proof. reflexivity. Qed.

(** [X6] Rules are evaluated in order and only as far as needed. The
    result for a list of rules followed by another is the result for the
    first list when that one matches or raises, and the result for the
    second list otherwise; so that the rules after a matching rule are
    not evaluated, even when one of them holds a pattern that does not
    compile. A rule without any pattern matches no entry: it can be added
    or removed anywhere without changing a result. *)
Theorem check_filters_in_order (item : FeedItem.t)
    (rules1 rules2 : list FilterConfig.t) :
  check_filters item (rules1 ++ rules2) =
    (let* m := check_filters item rules1 in
     if m then Ok true else check_filters item rules2) ∧
  (check_filters item rules1 = Ok true →
     check_filters item (rules1 ++ rules2) = Ok true) ∧
  (∀ e, check_filters item rules1 = Raise e →
     check_filters item (rules1 ++ rules2) = Raise e) ∧
  check_filters item (rules1 ++ FilterConfig.mk None None None :: rules2)
    = check_filters item (rules1 ++ rules2).
Proof.
  split_and!.
  - apply check_filters_app.
  - apply check_filters_matched.
  - intros e H. by rewrite check_filters_app, H.
  - rewrite !check_filters_app. by destruct (check_filters item rules1) as [[]|].
Qed.


Lemma is_blocked_true_inv item feed_config :
  is_blocked item feed_config = Ok true →
  check_filters item (FeedConfig.exclude feed_config) = Ok true ∧
  check_filters item (FeedConfig.include feed_config) = Ok false.
Proof.
  unfold is_blocked.
  destruct (check_filters item (FeedConfig.exclude feed_config)) as [[]|];
    simpl; [|done..].
  destruct (check_filters item (FeedConfig.include feed_config)) as [[]|];
    simpl; by intros [=].
Qed.

Lemma is_blocked_false_inv item feed_config :
  is_blocked item feed_config = Ok false →
  check_filters item (FeedConfig.exclude feed_config) = Ok false ∨
  (check_filters item (FeedConfig.exclude feed_config) = Ok true ∧
   check_filters item (FeedConfig.include feed_config) = Ok true).
Proof.
  unfold is_blocked.
  destruct (check_filters item (FeedConfig.exclude feed_config)) as [[]|];
    simpl; [|by left|done].
  destruct (check_filters item (FeedConfig.include feed_config)) as [[]|];
    simpl; intros [=]. by right.
Qed.

(** [X7] Appending rules is monotone, whatever the patterns. An entry
    that a feed blocks is still blocked after exclude rules are appended
    to the feed; an entry that a feed passes still passes after include
    rules are appended. Neither needs the appended patterns to compile:
    they are not evaluated for such an entry. *)
Theorem appended_rules_are_monotone (item : FeedItem.t) (name : string)
    (urls : list string) (exclude include more : list FilterConfig.t) :
  (is_blocked item (FeedConfig.mk name urls exclude include) = Ok true →
   is_blocked item (FeedConfig.mk name urls (exclude ++ more) include) = Ok true) ∧
  (is_blocked item (FeedConfig.mk name urls exclude include) = Ok false →
   is_blocked item (FeedConfig.mk name urls exclude (include ++ more)) = Ok false).
Proof.
  split.
  - intros [Hex Hin]%is_blocked_true_inv. simpl in *.
    unfold is_blocked. simpl. by rewrite (check_filters_matched _ _ _ Hex), Hin.
  - intros [Hex|[Hex Hin]]%is_blocked_false_inv; simpl in *;
      unfold is_blocked; simpl; rewrite Hex; [done|].
    by rewrite (check_filters_matched _ _ _ Hin).
Qed.

Lemma any_fullmatch_invalid pattern values :
  re_compile pattern = None →
  any_fullmatch pattern values =
    match values with [] => Ok false | _ :: _ => Raise re_error end.
Proof.
  intros H. destruct values as [|v values]; [done|]. simpl.
  unfold re_fullmatch. by rewrite H.
Qed.

(** [X8] A category pattern that does not compile raises for the entries
    that have a category, and only for them: for an entry without
    categories the pattern is never handed to the engine, and the rule
    counts as if it had no category pattern. *)
Theorem invalid_category_pattern_needs_a_category (pattern : string)
    (item : FeedItem.t) (creator : ostr) (rest : list FilterConfig.t) :
  re_compile pattern = None →
  check_filters item (FilterConfig.mk None (Some pattern) creator :: rest) =
    match FeedItem.categories item with
    | [] => check_filters item (FilterConfig.mk None None creator :: rest)
    | _ :: _ => Raise re_error
    end.
Proof.
  intros H. cbn [check_filters]. unfold filter_matches. simpl.
  rewrite (any_fullmatch_invalid _ _ H).
  by destruct (FeedItem.categories item).
Qed.

Lemma existsb_Permutation {A} (f : A → bool) l l' :
  l ≡ₚ l' → existsb f l = existsb f l'.
Proof.
  induction 1 as [|x l l' _ IH|x y l|l l' l'' _ IH1 _ IH2]; simpl.
  - done.
  - by rewrite IH.
  - by destruct (f x), (f y).
  - by rewrite IH1.
Qed.

Lemma check_filters_Permutation item rules rules' :
  rules_compile rules → rules ≡ₚ rules' →
  check_filters item rules = check_filters item rules'.
Proof.
  intros Hc Hp.
  assert (rules_compile rules') as Hc' by (unfold rules_compile; by rewrite <- Hp).
  rewrite !check_filters_returns by done.
  f_equal. by apply existsb_Permutation.
Qed.

(** [X9] For a feed whose patterns are regular expressions, the order of
    the rules within the exclude list and within the include list has no
    influence on the classification of an entry. *)
Theorem rule_order_is_irrelevant (item : FeedItem.t) (name : string)
    (urls : list string) (exclude include exclude' include' : list FilterConfig.t) :
  config_compiles (FeedConfig.mk name urls exclude include) →
  exclude ≡ₚ exclude' → include ≡ₚ include' →
  is_blocked item (FeedConfig.mk name urls exclude' include')
    = is_blocked item (FeedConfig.mk name urls exclude include).
Proof.
  intros [Hex Hin] Pex Pin. simpl in *. unfold is_blocked. simpl.
  by rewrite (check_filters_Permutation item _ _ Hex Pex),
             (check_filters_Permutation item _ _ Hin Pin).
Qed.
End rule_composition.

Section pipeline_runs.
Context {engine : Regex}.
Import FilterStatistics.
#[local] Arguments FilterStatistics.add : simpl never.






(** What a run of the loop looks like, whether it ends or raises. *)
Lemma process_loop_shape items feed_config stats :
  let r := process_loop items feed_config stats in
  (Run.calls r).*1 `prefix_of` items ∧
  Forall (λ c, is_blocked c.1 feed_config = Ok (negb c.2)) (Run.calls r) ∧
  Run.yielded r = (filter (λ c, c.2 = true) (Run.calls r)).*1 ∧
  match Run.raised r with
  | None => (Run.calls r).*1 = items
  | Some e =>
      ∃ item, items !! length (Run.calls r) = Some item ∧
              is_blocked item feed_config = Raise e
  end.
Proof.
  revert stats. induction items as [|item rest IH]; intros stats.
  - simpl. split_and!; [done|constructor|done|done].
  - cbn [process_loop].
    destruct (is_blocked item feed_config) as [[]|e] eqn:Hb.
    + destruct (IH (add stats item false)) as (Hp & Hf & Hy & Hr).
      cbn zeta in *. cbn [Run.calls Run.yielded Run.raised]. split_and!.
      * rewrite fmap_cons. by apply prefix_cons.
      * by constructor.
      * rewrite filter_cons. by destruct (decide _).
      * destruct (Run.raised _); [done|]. rewrite fmap_cons. by f_equal.
    + destruct (IH (add stats item true)) as (Hp & Hf & Hy & Hr).
      cbn zeta in *. cbn [Run.calls Run.yielded Run.raised]. split_and!.
      * rewrite fmap_cons. by apply prefix_cons.
      * by constructor.
      * rewrite filter_cons. destruct (decide _); [|done].
        rewrite fmap_cons. by f_equal.
      * destruct (Run.raised _); [done|]. rewrite fmap_cons. by f_equal.
    + simpl. split_and!; [apply prefix_nil|constructor|done|].
      by exists item.
Qed.

(** The ledger has no influence on what a run yields, records and
    raises. *)
Lemma process_loop_any_ledger items feed_config stats stats' :
  let r := process_loop items feed_config stats in
  let r' := process_loop items feed_config stats' in
  Run.yielded r = Run.yielded r' ∧ Run.calls r = Run.calls r' ∧
  Run.raised r = Run.raised r'.
Proof.
  revert stats stats'. induction items as [|item rest IH]; intros stats stats';
    [done|]. cbn [process_loop].
  destruct (is_blocked item feed_config) as [[]|e]; [| |done].
  - destruct (IH (add stats item false) (add stats' item false))
      as (Hy & Hc & Hr). cbn zeta in *. simpl. by rewrite Hy, Hc, Hr.
  - destruct (IH (add stats item true) (add stats' item true))
      as (Hy & Hc & Hr). cbn zeta in *. simpl. by rewrite Hy, Hc, Hr.
Qed.


Lemma run_eq (r r' : Run.t) :
  Run.yielded r = Run.yielded r' → Run.calls r = Run.calls r' →
  Run.stats r = Run.stats r' → Run.raised r = Run.raised r' → r = r'.
Proof. destruct r, r'. simpl. by intros -> -> -> ->. Qed.

Lemma process_loop_again items feed_config stats :
  let r := process_loop items feed_config stats in
  process_loop items feed_config (Run.stats r) = r.
Proof.
  intros r.
  destruct (process_loop_any_ledger items feed_config (Run.stats r) stats)
    as (Hy & Hc & Hr). fold r in Hy, Hc, Hr.
  apply run_eq; [done..| |done].
  assert (Run.stats r = add_all stats (Run.calls r)) as Hs
    by apply process_loop_stats.
  rewrite process_loop_stats, Hc, Hs. apply add_all_replay.
Qed.


(** [X11] A run of the pipeline and the ledger of earlier runs. Whatever
    ledger a run is given, and whether it ends or raises: a title that no
    entry of the input carries keeps the entry and the side it had; a
    title that was not on both sides before is not on both sides after;
    an entry that the ledger holds after the run was held under the
    same key before, or carries its key as title and is an entry that
    survived de-duplication in this run; and a title that the run has
    recorded is held on the side of the last record that the run made of
    it, and not on the other, whatever the ledger said before. *)
Theorem pipeline_ledger_frame (items : list FeedItem.t)
    (feed_config : FeedConfig.t) (stats : FilterStatistics.t) :
  let r := process_feed_items items feed_config stats in
  (∀ key, key ∉ FeedItem.title <$> items →
     passed (Run.stats r) !! key = passed stats !! key ∧
     blocked (Run.stats r) !! key = blocked stats !! key) ∧
  (∀ key, ¬ (is_Some (passed stats !! key) ∧ is_Some (blocked stats !! key)) →
     ¬ (is_Some (passed (Run.stats r) !! key) ∧
        is_Some (blocked (Run.stats r) !! key))) ∧
  (∀ key item,
     passed (Run.stats r) !! key = Some item ∨
     blocked (Run.stats r) !! key = Some item →
     (passed stats !! key = Some item ∨ blocked stats !! key = Some item) ∨
     (FeedItem.title item = key ∧ item ∈ FeedItem.unicalize items)) ∧
  (∀ key item p, last_call key (Run.calls r) = Some (item, p) →
     (if p then passed (Run.stats r) else blocked (Run.stats r)) !! key
       = Some item ∧
     (if p then blocked (Run.stats r) else passed (Run.stats r)) !! key = None).
Proof.
  intros r.
  assert (Run.stats r = add_all stats (Run.calls r)) as Hs
    by apply process_loop_stats.
  assert ((Run.calls r).*1 `prefix_of` FeedItem.unicalize items) as Hp
    by apply process_loop_shape.
  assert (∀ item p, (item, p) ∈ Run.calls r → item ∈ FeedItem.unicalize items)
    as Hin.
  { intros item p H. apply (elem_of_prefix (Run.calls r).*1); [|done].
    apply list_elem_of_fmap. by exists (item, p). }
  assert (∀ key, key ∉ FeedItem.title <$> items → last_call key (Run.calls r) = None)
    as Hnone.
  { intros key Hkey. apply last_call_None. intros Hk. apply Hkey.
    apply list_elem_of_fmap in Hk as ([item p] & -> & Hc). simpl.
    apply list_elem_of_fmap. exists item. split; [done|].
    apply (elem_of_sublist (FeedItem.unicalize items));
      [by apply (Hin item p)|apply unicalize_from_sublist]. }
  split_and!.
  - intros key Hkey. rewrite Hs.
    pose proof (add_all_lookup stats (Run.calls r) key) as H.
    by rewrite (Hnone key Hkey) in H.
  - intros key Hex. rewrite Hs.
    pose proof (add_all_lookup stats (Run.calls r) key) as H.
    destruct (last_call key (Run.calls r)) as [[item p]|];
      destruct H as [-> ->]; [|done].
    destruct p; intros [[? ?] [? ?]]; done.
  - intros key item. rewrite Hs.
    pose proof (add_all_lookup stats (Run.calls r) key) as H.
    destruct (last_call key (Run.calls r)) as [[item' p]|] eqn:Hl;
      destruct H as [-> ->]; [|by left].
    apply last_call_Some in Hl as [Ht Hc]. apply Hin in Hc.
    intros Hi. right. destruct p, Hi as [Hi|Hi]; naive_solver.
  - intros key item p Hl. rewrite Hs.
    pose proof (add_all_lookup stats (Run.calls r) key) as H.
    rewrite Hl in H. by destruct p, H.
Qed.

(** [X12] Running the pipeline again changes nothing. A second run on
    the same input and the same feed, started on the ledger that the
    first run left, yields, records and raises what the first run did and
    leaves the ledger as it found it. *)
Theorem pipeline_run_again (items : list FeedItem.t)
    (feed_config : FeedConfig.t) (stats : FilterStatistics.t) :
  let r := process_feed_items items feed_config stats in
  process_feed_items items feed_config (Run.stats r) = r.
Proof. apply process_loop_again. Qed.
End pipeline_runs.

Section parsed_entries.
Import ET.

Lemma normalize_eol_cons c rest :
  normalize_eol (String c rest) =
    if Ascii.eqb c "013"
    then String "010"
           (normalize_eol
              match rest with
              | String a rest' => if Ascii.eqb a "010" then rest' else rest
              | EmptyString => rest
              end)
    else String c (normalize_eol rest).
Proof.
  destruct rest as [|a rest']; [done|]. cbn [normalize_eol].
  destruct (Ascii.eqb c "013"); [|done].
  by destruct a as [[] [] [] [] [] [] [] []].
Qed.

Lemma normalize_eol_cases (P : string → Prop) :
  P "" → (∀ c, P (String c "")) →
  (∀ c a s, P s → P (String a s) → P (String c (String a s))) →
  ∀ s, P s.
Proof.
  intros H0 H1 H2 s.
  assert (P s ∧ ∀ c, P (String c s)) as [? _]; [|done].
  induction s as [|a s [IH1 IH2]]; [by split|]. split; [apply IH2|].
  intros c. by apply H2.
Qed.

Lemma normalize_eol_idempotent s :
  normalize_eol (normalize_eol s) = normalize_eol s.
Proof.
  induction s as [|c|c a s IH1 IH2] using normalize_eol_cases; [done| |].
  - rewrite normalize_eol_cons.
    destruct (Ascii.eqb c "013") eqn:Hc; rewrite normalize_eol_cons;
      [done|by rewrite Hc].
  - rewrite (normalize_eol_cons c).
    destruct (Ascii.eqb c "013") eqn:Hc; rewrite normalize_eol_cons.
    + change (Ascii.eqb "010" "013") with false. cbv iota. f_equal.
      by destruct (Ascii.eqb a "010").
    + rewrite Hc. by f_equal.
Qed.

Lemma xml_chars_cons c s : xml_chars (String c s) = xml_char c && xml_chars s.
Proof. reflexivity. Qed.

Lemma xml_chars_normalize_eol s :
  xml_chars s = true → xml_chars (normalize_eol s) = true.
Proof.
  induction s as [|c|c a s IH1 IH2] using normalize_eol_cases; [done| |].
  - rewrite normalize_eol_cons. by destruct (Ascii.eqb c "013").
  - rewrite (normalize_eol_cons c), !xml_chars_cons.
    intros [Hc [Ha Hs]%andb_prop]%andb_prop.
    destruct (Ascii.eqb c "013"); rewrite xml_chars_cons.
    + change (xml_char "010") with true. cbv iota.
      destruct (Ascii.eqb a "010"); [by apply IH1|].
      apply IH2. rewrite xml_chars_cons. by rewrite Ha, Hs.
    + rewrite Hc. apply IH2. rewrite xml_chars_cons. by rewrite Ha, Hs.
Qed.

Lemma normalize_eol_empty s : normalize_eol s = "" → s = "".
Proof.
  destruct s as [|c s]; [done|]. rewrite normalize_eol_cons.
  by destruct (Ascii.eqb c "013").
Qed.

(** A text that has been read is plain. *)
Lemma read_text_reads_plain x s :
  read_text x = Ok (Some s) → plain s = true.
Proof.
  unfold read_text. destruct x as [s0|]; [|done].
  destruct (String.eqb s0 "") eqn:He; [done|].
  destruct (xml_chars s0) eqn:Hx; [|done]. intros [= <-].
  unfold plain. rewrite xml_chars_normalize_eol by done.
  rewrite normalize_eol_idempotent, String.eqb_refl.
  destruct (String.eqb (normalize_eol s0) "") eqn:Hn; [|done].
  apply String.eqb_eq, normalize_eol_empty in Hn. subst s0. done.
Qed.

Lemma read_element_text e s :
  read_element e → text e = Some s → plain s = true.
Proof.
  intros [e0 (_ & _ & Ht & _)%read_back_inv] Hs. rewrite Hs in Ht.
  by apply read_text_reads_plain in Ht.
Qed.

Lemma read_element_attrib e k v :
  read_element e → attrib e !! k = Some v → xml_chars v = true.
Proof.
  intros [[t a x c] He]. rewrite read_back_unfold in He.
  unfold read_attrib in He.
  destruct (forallb xml_chars (map_to_list a).*2) eqn:Ha; [|done].
  simpl in He. destruct (read_text x); [|done].
  destruct (read_all c); [|done]. simpl in He. injection He as <-. simpl.
  intros Hk. rewrite forallb_forall in Ha. apply Ha.
  apply list_elem_of_In, list_elem_of_fmap. exists (k, v). split; [done|].
  by apply elem_of_map_to_list.
Qed.

Lemma read_element_children e c :
  read_element e → c ∈ children e → read_element c.
Proof.
  intros [e0 (_ & _ & _ & Hc)%read_back_inv] Hin.
  apply read_all_Forall2 in Hc.
  destruct (list_elem_of_lookup_1 _ _ Hin) as [i Hi].
  destruct (Forall2_lookup_r _ _ _ _ _ Hc Hi) as (c0 & _ & H0).
  by exists c0.
Qed.

Lemma elem_of_with_tag t l e : e ∈ with_tag t l → e ∈ l ∧ tag e = t.
Proof.
  induction l as [|x l IH]; simpl; [by intros ?%elem_of_nil|].
  destruct (String.eqb (tag x) t) eqn:Hx.
  - intros [->|Hin]%elem_of_cons.
    + split; [left|by apply String.eqb_eq].
    + destruct (IH Hin). split; [by right|done].
  - intros Hin. destruct (IH Hin). split; [by right|done].
Qed.

Lemma find_Some_children e t c : find e t = Some c → c ∈ children e.
Proof.
  unfold find, findall. intros H.
  apply (elem_of_with_tag t). destruct (with_tag t (children e)); [done|].
  injection H as ->. left.
Qed.

Lemma parse_items_yielded l fi :
  fi ∈ Parsed.yielded (parse_items l) →
  ∃ item, item ∈ l ∧ parse_item item = Ok fi.
Proof.
  induction l as [|item rest IH]; simpl; [by intros ?%elem_of_nil|].
  destruct (parse_item item) as [fi'|] eqn:Hp; simpl;
    [|by intros ?%elem_of_nil].
  intros [->|Hin]%elem_of_cons.
  - exists item. split; [left|done].
  - destruct (IH Hin) as (it & ? & ?). exists it. split; [by right|done].
Qed.

(** The entry parsed from an element that was read. *)
Lemma parse_item_read_element item fi :
  read_element item → parse_item item = Ok fi → parsed_entry fi.
Proof.
  intros Hitem Hparse. pose proof (parse_item_cases item) as Hcases.
  destruct (find item "title") as [t|] eqn:Ft; [|congruence].
  destruct (find item "guid") as [g|] eqn:Fg; [|congruence].
  destruct (find item "link") as [l|] eqn:Fl; [|congruence].
  destruct (find item "description") as [d|] eqn:Fd; [|congruence].
  destruct (find item "pubDate") as [p|] eqn:Fp; [|congruence].
  destruct (find item dc_creator) as [c|] eqn:Fc; [|congruence].
  destruct (text l) as [s|] eqn:Hl; [|congruence].
  rewrite Hcases in Hparse.
  apply init_ok_inv in Hparse as (Ht & Hg & Ha & Hlink & Hd & Hp & Hcs & Hc).
  assert (∀ t e, find item t = Some e → read_element e) as Hchild.
  { intros t' e' F. apply (read_element_children item); [done|].
    by apply find_Some_children in F. }
  unfold parsed_entry. split_and!.
  - by apply (read_element_text t); [eapply Hchild|].
  - by apply (read_element_text g); [eapply Hchild|].
  - by apply (read_element_attrib g "isPermaLink"); [eapply Hchild|].
  - exists s. split; [|congruence].
    by apply (read_element_text l); [eapply Hchild|].
  - by apply (read_element_text d); [eapply Hchild|].
  - by apply (read_element_text p); [eapply Hchild|].
  - apply Forall_forall. intros category Hin.
    assert (Some category ∈ text <$> findall item "category") as Hsome.
    { rewrite Hcs. apply list_elem_of_fmap. by exists category. }
    apply list_elem_of_fmap in Hsome as (e & He & Hin').
    apply (read_element_text e); [|done].
    apply (read_element_children item); [done|].
    by apply elem_of_with_tag in Hin' as [? _].
  - by apply (read_element_text c); [eapply Hchild|].
Qed.

Lemma parse_feed_yields_parsed content :
  Forall parsed_entry (Parsed.yielded (parse_feed content)).
Proof.
  apply Forall_forall. intros fi. unfold parse_feed.
  destruct (fromstring content) as [root|] eqn:Hroot;
    [|by intros ?%elem_of_nil].
  intros (item & Hin & Hparse)%parse_items_yielded.
  apply (parse_item_read_element item); [|done].
  unfold findall_path, findall in Hin.
  apply list_elem_of_bind in Hin as (channel & Hitem & Hchannel).
  apply elem_of_with_tag in Hitem as [Hitem _].
  apply elem_of_with_tag in Hchannel as [Hchannel _].
  apply (read_element_children channel); [|done].
  apply (read_element_children root); [|done].
  destruct content as [written]. by exists written.
Qed.

(** [X13] Every entry that the parser yields, from whatever document,
    has a title, a guid, a description, a publication date and a creator
    that are not empty, and no category that is empty; and its link holds
    no [?utm]. The link itself and the permalink flag can be empty. *)
Theorem parsed_entries_are_filled (content : Document) :
  Forall (λ fi,
            truthy (FeedItem.title fi) = true ∧
            truthy (FeedItem.guid fi) = true ∧
            truthy (FeedItem.description fi) = true ∧
            truthy (FeedItem.pub_date fi) = true ∧
            truthy (FeedItem.creator fi) = true ∧
            Forall (λ category, truthy category = true) (FeedItem.categories fi) ∧
            ∀ p, ¬ occurs_after "?utm" p (FeedItem.link fi))
         (Parsed.yielded (parse_feed content)).
Proof.
  eapply Forall_impl; [apply parse_feed_yields_parsed|].
  intros fi (Ht & Hg & _ & (s & _ & ->) & Hd & Hp & Hcs & Hc).
  split_and!; try (by apply plain_truthy).
  - eapply Forall_impl; [exact Hcs|]. intros c. apply plain_truthy.
  - by apply split_head_clean.
Qed.
End parsed_entries.

Section reparse.
Import ET.

Lemma xml_chars_prefix p rest :
  xml_chars (p +:+ rest) = true → xml_chars p = true.
Proof.
  induction p as [|c p IH]; [done|]. simpl. rewrite !xml_chars_cons.
  intros [-> ?]%andb_prop. by apply IH.
Qed.

Lemma normalize_eol_prefix p rest :
  normalize_eol (p +:+ rest) = p +:+ rest → normalize_eol p = p.
Proof.
  induction p as [|c p IH]; [done|]. simpl String.append.
  rewrite !normalize_eol_cons. destruct (Ascii.eqb c "013") eqn:Hc.
  - intros [= <- _]. done.
  - intros [= H]. f_equal. by apply IH.
Qed.

Lemma plain_prefix p rest :
  plain (p +:+ rest) = true → truthy p = true → plain p = true.
Proof.
  unfold plain, truthy.
  intros [[_ Hx]%andb_prop Hn%String.eqb_eq]%andb_prop ->.
  rewrite (xml_chars_prefix _ _ Hx), (normalize_eol_prefix _ _ Hn).
  by rewrite String.eqb_refl.
Qed.

(** A parsed entry with a link that is not empty has plain fields. *)
Lemma parsed_entry_plain_fields fi :
  parsed_entry fi → truthy (FeedItem.link fi) = true → plain_fields fi.
Proof.
  intros (Ht & Hg & _ & (s & Hs & Hl) & Hd & Hp & Hcs & Hc) Hlink.
  unfold plain_fields. split_and!; try done.
  destruct (split_head_is_prefix "?utm" s) as [rest Hrest].
  fold (cleanup_link s) in Hrest. rewrite <- Hl in Hrest.
  apply (plain_prefix _ rest); [by rewrite <- Hrest|done].
Qed.

Lemma read_back_dump_guid_chars item :
  plain (FeedItem.guid item) = true →
  xml_chars (FeedItem.guid_permalink item) = true →
  read_back (dump_guid item) = Ok (dump_guid item).
Proof.
  intros Hg Hflag. unfold dump_guid.
  rewrite read_back_unfold, (read_text_plain _ Hg).
  destruct (truthy (FeedItem.guid_permalink item)).
  - by rewrite read_attrib_singleton.
  - by rewrite read_attrib_empty.
Qed.

Lemma read_back_dump_item_chars item :
  plain_fields item → xml_chars (FeedItem.guid_permalink item) = true →
  read_back (dump_item item) = Ok (dump_item item).
Proof.
  intros (Ht & Hg & Hl & Hd & Hpub & Hcat & Hcr) Hflag.
  unfold dump_item. rewrite read_back_unfold, read_attrib_empty.
  cbn [bind read_text]. rewrite read_all_fixed; [done|].
  rewrite !Forall_app, !Forall_cons, Forall_nil, Forall_fmap.
  split_and!; try (by apply read_back_plain_element); try done.
  - by apply read_back_dump_guid_chars.
  - eapply Forall_impl; [done|]. intros v Hv. by apply read_back_plain_element.
Qed.

Lemma parse_items_flagged items :
  Forall (λ item, truthy (FeedItem.guid_permalink item) = true) items →
  parse_items (dump_item <$> items) = Parsed.mk (with_clean_link <$> items) None.
Proof.
  induction 1 as [|item rest Hflag _ IH]; [done|].
  rewrite !fmap_cons. cbn [parse_items].
  by rewrite parse_item_dump_item, Hflag, IH.
Qed.

Lemma roundtrip_parsed items :
  Forall parsed_entry items →
  Forall (λ fi, truthy (FeedItem.guid_permalink fi) = true ∧
                truthy (FeedItem.link fi) = true) items →
  parse_feed (dump_feed items) = Parsed.mk items None.
Proof.
  intros Hparsed Hok. pose proof (parse_feed_dump_feed items) as Hparse.
  rewrite read_all_fixed in Hparse.
  - rewrite Hparse, parse_items_flagged.
    + f_equal. rewrite <- (list_fmap_id items) at 2.
      apply Forall_fmap_ext_1. eapply Forall_impl; [exact Hparsed|].
      intros fi (_ & _ & _ & (s & _ & Hl) & _). apply with_clean_link_clean.
      by exists s.
    + eapply Forall_impl; [exact Hok|]. by intros fi [? _].
  - rewrite Forall_fmap. apply Forall_forall. intros fi Hin.
    rewrite Forall_forall in Hparsed, Hok.
    destruct (Hok fi Hin) as [_ Hlink]. pose proof (Hparsed fi Hin) as Hfi.
    apply read_back_dump_item_chars; [by apply parsed_entry_plain_fields|].
    by destruct Hfi as (_ & _ & ? & _).
Qed.

Lemma parse_items_all l entries :
  parse_items l = Parsed.mk entries None →
  Forall2 (λ item fi, parse_item item = Ok fi) l entries.
Proof.
  revert entries. induction l as [|item rest IH]; intros entries; simpl.
  - intros [= <-]. constructor.
  - destruct (parse_item item) as [fi|] eqn:Hp; [|done].
    destruct (parse_items rest) as [ys r] eqn:Hrest. simpl.
    intros [= <- ->]. constructor; [done|by apply IH].
Qed.

Lemma Forall2_through {A B} (R1 : A → B → Prop) (R2 : B → A → Prop) l l' :
  Forall2 R1 l l' → Forall2 R2 l' l → Forall (λ x, ∃ y, R1 x y ∧ R2 y x) l.
Proof.
  induction 1 as [|x y l l' H1 _ IH]; [constructor|].
  intros [H2 Hrest]%Forall2_cons_1. constructor; [by exists y|by apply IH].
Qed.

(** An entry that is parsed from its own serialization has a flag and a
    link that are not empty. *)
Lemma parse_item_of_own_dump item item' :
  read_back (dump_item item) = Ok item' → parse_item item' = Ok item →
  truthy (FeedItem.guid_permalink item) = true ∧
  truthy (FeedItem.link item) = true.
Proof.
  intros Hread Hparse. split.
  - pose proof (parse_item_read_back_permalink _ _ _ Hread Hparse) as H.
    unfold written_permalink in H. by destruct (truthy _).
  - destruct (parse_item_ok_inv _ _ Hparse) as (Htags & _).
    destruct (Htags "link") as (e & Hfind & [s Hs]); [set_solver|].
    pose proof (read_back_find _ _ "link" Hread) as Hf. rewrite Hfind in Hf.
    destruct Hf as (g & Hg & Hback).
    destruct (find_dump_item item) as (_ & _ & Hlink & _).
    rewrite Hlink in Hg. injection Hg as <-.
    apply read_back_inv in Hback as (_ & _ & Ht & _). simpl in Ht.
    rewrite Hs in Ht. unfold truthy. by destruct (String.eqb _ "").
Qed.

Lemma roundtrip_exact_inv items :
  parse_feed (dump_feed items) = Parsed.mk items None →
  Forall (λ fi, truthy (FeedItem.guid_permalink fi) = true ∧
                truthy (FeedItem.link fi) = true) items.
Proof.
  intros H. pose proof (parse_feed_dump_feed items) as Hparse.
  destruct (read_all (dump_item <$> items)) as [items'|e] eqn:Hread;
    [|congruence].
  rewrite H in Hparse. symmetry in Hparse. apply parse_items_all in Hparse.
  apply read_all_Forall2, Forall2_fmap_l in Hread.
  eapply Forall_impl; [exact (Forall2_through _ _ _ _ Hread Hparse)|].
  intros fi (item' & Hr & Hp). by apply (parse_item_of_own_dump fi item').
Qed.

(** [X14] Feeding the parser with its own output. The entries that the
    parser yields from a document, serialized and parsed again, come back
    as they are exactly when each of them has a permalink flag and a
    link that are not empty; otherwise the second parse does not
    reproduce them. *)
Theorem reparse_parsed_entries (content : Document) :
  let entries := Parsed.yielded (parse_feed content) in
  parse_feed (dump_feed entries) = Parsed.mk entries None ↔
  Forall (λ fi, truthy (FeedItem.guid_permalink fi) = true ∧
                truthy (FeedItem.link fi) = true) entries.
Proof.
  intros entries. split.
  - apply roundtrip_exact_inv.
  - apply roundtrip_parsed, parse_feed_yields_parsed.
Qed.
End reparse.

Section handler_properties.
Context {engine : Regex}.
Import FilterStatistics.



Lemma gather_cases client request urls :
  gather client request urls =
    match urls, Request.user_agent request with
    | [], _ => Returned []
    | _ :: _, None => Failed KeyError
    | _ :: _, Some agent => Returned ((λ url, client url agent) <$> urls)
    end.
Proof.
  induction urls as [|url rest IH]; [done|]. cbn [gather].
  unfold session_get. destruct (Request.user_agent request) as [agent|]; [|done].
  simpl. rewrite IH. by destruct rest.
Qed.


(** [X16] Requests that fail before anything is parsed. For the feed of
    the request: when it has no source, the request fails with
    [IndexError], whatever its headers; when it has a source and the
    request has no user agent, the request fails with [KeyError]; when
    the response of the first source has no content type, the request
    fails with [KeyError]. In each case the ledger is left as it is. *)
Theorem handle_feed_fails_early (self : Handler.t) (client : Client)
    (request : Request.t) (feed_config : FeedConfig.t) :
  find_feed (FeedsConfig.feeds (Handler._config self)) (Request.name request)
    = Some feed_config →
  (FeedConfig.urls feed_config = [] →
     handle_feed self client request = (Failed IndexError, self)) ∧
  (FeedConfig.urls feed_config ≠ [] → Request.user_agent request = None →
     handle_feed self client request = (Failed KeyError, self)) ∧
  (∀ url rest agent,
     FeedConfig.urls feed_config = url :: rest →
     Request.user_agent request = Some agent →
     Response.content_type (client url agent) = None →
     handle_feed self client request = (Failed KeyError, self)).
Proof.
  intros Hfind. unfold handle_feed. rewrite Hfind, gather_cases. split_and!.
  - by intros ->.
  - intros Hurls ->. by destruct (FeedConfig.urls feed_config).
  - intros url rest agent -> -> Hct. rewrite fmap_cons. by rewrite Hct.
Qed.

Lemma chain_complete runs :
  Forall (λ run, Parsed.raised run = None) runs →
  chain runs = Parsed.mk (runs ≫= Parsed.yielded) None.
Proof.
  induction 1 as [|run runs Hrun _ IH]; [done|]. cbn [chain].
  by rewrite Hrun, IH.
Qed.


(** The pipeline over a stream of entries, for a feed whose patterns are
    regular expressions. *)
Lemma process_feed_stream_compiles items feed_config stats :
  config_compiles feed_config →
  let survivors := FeedItem.unicalize (Parsed.yielded items) in
  let passes item := spec_classify item (FeedConfig.exclude feed_config)
                                        (FeedConfig.include feed_config) in
  let calls := (λ item, (item, passes item)) <$> survivors in
  process_feed_stream items feed_config stats =
    Run.mk (filter (λ item, passes item = true) survivors) calls
           (add_all stats calls) (Parsed.raised items).
Proof.
  intros Hcfg survivors passes calls. unfold process_feed_stream.
  pose proof (process_loop_stats survivors feed_config stats) as Hs.
  destruct (process_loop_compiles survivors feed_config stats Hcfg)
    as (Hr & Hc & Hy).
  fold (process_feed_items (Parsed.yielded items) feed_config stats) in Hs, Hr, Hc, Hy.
  unfold process_feed_items. fold survivors.
  rewrite Hr. f_equal; [done|done|]. by rewrite Hs, Hc.
Qed.

Lemma handle_feed_runs self client request feed_config url rest agent header :
  find_feed (FeedsConfig.feeds (Handler._config self)) (Request.name request)
    = Some feed_config →
  FeedConfig.urls feed_config = url :: rest →
  Request.user_agent request = Some agent →
  Response.content_type (client url agent) = Some header →
  let contents :=
    (λ url, Response.text (client url agent)) <$> FeedConfig.urls feed_config in
  let r := process_feed_stream (chain (parse_feed <$> contents)) feed_config
             (Handler._stats self) in
  handle_feed self client request =
    (match Run.raised r with
     | Some e => Failed (Uncaught e)
     | None => make_response (split_head ";" header)
                 (dump_feed (Run.yielded r))
     end, Handler.mk (Handler._config self) (Run.stats r)).
Proof.
  intros Hfind Hurls Hagent Hct contents r. unfold handle_feed.
  rewrite Hfind, gather_cases, Hagent. subst contents r. rewrite Hurls.
  cbv beta iota. rewrite (fmap_cons (λ url, client url agent)). cbv beta iota.
  rewrite Hct. cbv beta iota zeta.
  change (client url agent :: ((λ url, client url agent) <$> rest))
    with ((λ url, client url agent) <$> url :: rest).
  rewrite <- (list_fmap_compose (λ url, client url agent) Response.text).
  unfold compose. by destruct (Run.raised _).
Qed.

Lemma bind_fmap_list {A B C} (f : A → B) (g : B → list C) (l : list A) :
  (f <$> l) ≫= g = l ≫= (λ x, g (f x)).
Proof.
  induction l as [|x l IH]; [done|].
  by rewrite fmap_cons, !bind_cons, IH.
Qed.

Lemma contains_occurs sub s :
  contains sub s = true ↔ ∃ p, occurs_after sub p s.
Proof.
  induction s as [|c s IH]; cbn [contains]; rewrite orb_true_iff, prefix_occurs.
  - split; [intros [H|[=]]; by exists ""|].
    intros [p [r Hp]]. left. destruct p; [by exists r|done].
  - rewrite IH. split.
    + intros [H|[p H]]; [by exists ""|].
      exists (String c p). by apply occurs_after_cons.
    + intros [[|c' p] H]; [by left|right]. exists p.
      destruct H as [r [= -> Hr]]. by exists r.
Qed.

(** [X17] The answer to a feed request. For a feed whose patterns are
    regular expressions, a request with a user agent, and sources whose
    documents are all parsed to the end: the content type of the answer
    is the content type of the response of the first source, cut before
    its first [;]; when it holds [charset] the request fails with
    [ValueError], and otherwise the answer carries it together with the
    serialization of the entries that pass, taken from the entries of all
    the sources in the order of the addresses and de-duplicated. In both
    cases the ledger has recorded every entry that survived
    de-duplication with its classification: for every title that a
    surviving entry carries it holds the last surviving entry with that
    title, on the side of its classification and not on the other, and
    every other title is as it was. *)
Theorem handle_feed_answer (self : Handler.t) (client : Client)
    (request : Request.t) (feed_config : FeedConfig.t) (url : string)
    (rest : list string) (agent header : string) :
  find_feed (FeedsConfig.feeds (Handler._config self)) (Request.name request)
    = Some feed_config →
  config_compiles feed_config →
  FeedConfig.urls feed_config = url :: rest →
  Request.user_agent request = Some agent →
  Response.content_type (client url agent) = Some header →
  let parsed source := parse_feed (Response.text (client source agent)) in
  Forall (λ source, Parsed.raised (parsed source) = None) (url :: rest) →
  let survivors :=
    FeedItem.unicalize
      ((url :: rest) ≫= (λ source, Parsed.yielded (parsed source))) in
  let passes item := spec_classify item (FeedConfig.exclude feed_config)
                                        (FeedConfig.include feed_config) in
  let content_type := split_head ";" header in
  let served := handle_feed self client request in
  served =
    (if contains "charset" content_type
     then Failed ValueError
     else Returned
            (Answer.mk content_type
               (dump_feed (filter (λ item, passes item = true) survivors))),
     Handler.mk (Handler._config self)
       (add_all (Handler._stats self)
          ((λ item, (item, passes item)) <$> survivors))) ∧
  (∀ p, ¬ occurs_after ";" p content_type) ∧
  (contains "charset" content_type = true ↔
     ∃ p, occurs_after "charset" p content_type) ∧
  (∀ key,
     match last (filter (λ item, FeedItem.title item = key) survivors) with
     | Some item =>
         (if passes item
          then passed (Handler._stats served.2)
          else blocked (Handler._stats served.2)) !! key = Some item ∧
         (if passes item
          then blocked (Handler._stats served.2)
          else passed (Handler._stats served.2)) !! key = None
     | None =>
         passed (Handler._stats served.2) !! key
           = passed (Handler._stats self) !! key ∧
         blocked (Handler._stats served.2) !! key
           = blocked (Handler._stats self) !! key
     end).
Proof.
  intros Hfind Hcfg Hurls Hagent Hct parsed Hparsed survivors passes
    content_type served.
  assert (served =
    (if contains "charset" content_type
     then Failed ValueError
     else Returned
            (Answer.mk content_type
               (dump_feed (filter (λ item, passes item = true) survivors))),
     Handler.mk (Handler._config self)
       (add_all (Handler._stats self)
          ((λ item, (item, passes item)) <$> survivors)))) as Hserved.
  { unfold served.
    rewrite (handle_feed_runs _ _ _ _ _ _ _ _ Hfind Hurls Hagent Hct).
    rewrite Hurls, <- list_fmap_compose.
    change (parse_feed ∘ _) with parsed.
    rewrite chain_complete by (by apply Forall_fmap).
    rewrite bind_fmap_list.
    by rewrite (process_feed_stream_compiles _ _ _ Hcfg). }
  split_and!; [exact Hserved|by apply split_head_clean|apply contains_occurs|].
  intros key. rewrite Hserved. cbn [snd Handler._stats].
  pose proof (add_all_lookup (Handler._stats self)
                ((λ item, (item, passes item)) <$> survivors) key) as H.
  rewrite last_call_classified in H.
  destruct (last (filter (λ item, FeedItem.title item = key) survivors))
    as [item|]; simpl in H; [|done].
  destruct (passes item); by destruct H.
Qed.


Lemma process_feed_stream_again items feed_config stats :
  let r := process_feed_stream items feed_config stats in
  process_feed_stream items feed_config (Run.stats r) = r.
Proof.
  unfold process_feed_stream, process_feed_items.
  set (survivors := FeedItem.unicalize (Parsed.yielded items)).
  pose proof (process_loop_again survivors feed_config stats) as Hagain.
  cbv zeta in *.
  destruct (Run.raised (process_loop survivors feed_config stats)) eqn:Hr;
    cbn [Run.stats]; rewrite Hagain, Hr; done.
Qed.

(** [X19] Asking for a feed again. A request that is repeated while the
    sources return what they returned has the outcome it had the first
    time, and leaves the ledger as the first request left it. *)
Theorem handle_feed_again (self : Handler.t) (client : Client)
    (request : Request.t) :
  handle_feed (handle_feed self client request).2 client request
    = handle_feed self client request.
Proof.
  destruct (handle_feed self client request) as [out self'] eqn:H. cbn [snd].
  unfold handle_feed in H.
  destruct (find_feed _ _) as [feed_config|] eqn:Hfind.
  2: { injection H as <- <-. unfold handle_feed. by rewrite Hfind. }
  destruct (gather client request (FeedConfig.urls feed_config))
    as [[|first responses]|e] eqn:Hg.
  1, 3: injection H as <- <-; unfold handle_feed; by rewrite Hfind, Hg.
  destruct (Response.content_type first) as [header|] eqn:Hct.
  2: { injection H as <- <-. unfold handle_feed. by rewrite Hfind, Hg, Hct. }
  cbv zeta in H.
  set (items := chain (parse_feed <$> (Response.text <$> first :: responses)))
    in H.
  pose proof (process_feed_stream_again items feed_config (Handler._stats self))
    as Hagain. cbv zeta in Hagain.
  destruct (Run.raised (process_feed_stream items feed_config (Handler._stats self)))
    eqn:Hr; injection H as <- <-; unfold handle_feed;
    cbn [Handler._config Handler._stats]; rewrite Hfind, Hg, Hct; cbv zeta;
    fold items; by rewrite Hagain, Hr.
Qed.

Lemma add_all_invariant stats calls :
  ledger_invariant stats → ledger_invariant (add_all stats calls).
Proof.
  intros [Hex Hkeys]. split.
  - intros key. pose proof (add_all_lookup stats calls key) as H.
    destruct (last_call key calls) as [[item p]|];
      destruct H as [-> ->]; [|done].
    destruct p; intros [[? ?] [? ?]]; done.
  - intros key item. pose proof (add_all_lookup stats calls key) as H.
    destruct (last_call key calls) as [[item' p]|] eqn:Hl;
      destruct H as [-> ->]; [|apply Hkeys].
    apply last_call_Some in Hl as [Ht _].
    destruct p; intros [Hi|Hi]; naive_solver.
Qed.

Lemma process_feed_stream_invariant items feed_config stats :
  ledger_invariant stats →
  ledger_invariant (Run.stats (process_feed_stream items feed_config stats)).
Proof.
  intros Hinv. unfold process_feed_stream.
  assert (ledger_invariant
            (Run.stats (process_feed_items (Parsed.yielded items) feed_config stats))).
  { unfold process_feed_items. rewrite process_loop_stats.
    by apply add_all_invariant. }
  by destruct (Run.raised _).
Qed.

Lemma handle_feed_invariant self client request :
  ledger_invariant (Handler._stats self) →
  ledger_invariant (Handler._stats (handle_feed self client request).2) ∧
  Handler._config (handle_feed self client request).2 = Handler._config self.
Proof.
  intros Hinv. unfold handle_feed.
  destruct (find_feed _ _) as [feed_config|]; [|done].
  destruct (gather client request (FeedConfig.urls feed_config))
    as [[|first responses]|e]; [done| |done].
  destruct (Response.content_type first) as [header|]; [|done].
  cbv zeta.
  pose proof (process_feed_stream_invariant
                (chain (parse_feed <$> (Response.text <$> first :: responses)))
                feed_config _ Hinv) as H.
  by destruct (Run.raised _).
Qed.

(** [X20] The ledger of a running service. Whatever feed requests a
    handler has served since it was created, in whatever order, and
    whether they were answered or failed: no title is on both sides of
    its ledger, every key of the ledger is the title of the entry it is
    mapped to, and its configuration is the one it was created with.
    Every request has an outcome. *)
Theorem served_ledger_invariant (config : FeedsConfig.t) (client : Client)
    (requests : list Request.t) :
  let served := serve (Handler.init config) client requests in
  ledger_invariant (Handler._stats served.2) ∧
  Handler._config served.2 = config ∧
  length served.1 = length requests.
Proof.
  assert (∀ self, ledger_invariant (Handler._stats self) →
            let served := serve self client requests in
            ledger_invariant (Handler._stats served.2) ∧
            Handler._config served.2 = Handler._config self ∧
            length served.1 = length requests) as H.
  { induction requests as [|request rest IH]; intros self Hinv; [done|].
    cbn [serve].
    destruct (handle_feed_invariant self client request Hinv) as [Hinv' Hcfg].
    destruct (handle_feed self client request) as [out self'].
    specialize (IH self' Hinv'). cbv zeta in IH.
    destruct (serve self' client rest) as [outs self'']. simpl in *.
    destruct IH as (? & ? & ?). split_and!; [done|congruence|by f_equal]. }
  apply (H (Handler.init config)). split; simpl.
  - intros key. rewrite !lookup_empty. by intros [[? ?] _].
  - intros key item. rewrite !lookup_empty. by intros [?|?].
Qed.
End handler_properties.

Section link_results.

Lemma length_split_head sep s :
  String.length (split_head sep s) ≤ String.length s.
Proof.
  induction s as [|c s IH]; [done|]. rewrite split_head_cons.
  destruct (String.prefix sep (String c s)); simpl; lia.
Qed.

(** [X21] What link cleanup returns. The clean link is a prefix of the
    link, so that cleanup only ever removes the end of a link; it holds
    no [?utm]; cleaning it again changes nothing; and cleanup returns the
    link as it is exactly when the link holds no [?utm]. *)
Theorem cleanup_link_result (link : string) :
  (∃ rest, link = cleanup_link link +:+ rest) ∧
  String.length (cleanup_link link) ≤ String.length link ∧
  (∀ p, ¬ occurs_after "?utm" p (cleanup_link link)) ∧
  cleanup_link (cleanup_link link) = cleanup_link link ∧
  (cleanup_link link = link ↔ ∀ p, ¬ occurs_after "?utm" p link).
Proof.
  split_and!.
  - apply split_head_is_prefix.
  - apply length_split_head.
  - by apply split_head_clean.
  - apply cleanup_link_idempotent.
  - split; [|apply split_head_absent].
    intros <-. by apply split_head_clean.
Qed.
End link_results.

Section printed_form.

Lemma truthy_cons c s : truthy (String c s) = true.
Proof. reflexivity. Qed.

Lemma join_quoted sep s rest :
  ∃ tail, join sep (quoted s :: rest) = String "034" tail.
Proof.
  cbn [join]. destruct rest; unfold quoted; simpl; eauto.
Qed.

(** [X22] The printed form of an entry is its quoted title, [by], its
    quoted creator, the quoted categories between parentheses, and the
    link between angle brackets. The parentheses are there exactly when
    the entry has a category, be it the empty string. *)
Theorem repr_parentheses (self : FeedItem.t) :
  __repr__ self =
    (quoted (FeedItem.title self) +:+ " by " +:+ quoted (FeedItem.creator self))
    +:+ match FeedItem.categories self with
        | [] => ""
        | _ :: _ =>
            " (" +:+ join ", " (quoted <$> FeedItem.categories self) +:+ ")"
        end
    +:+ " - <" +:+ FeedItem.link self +:+ ">".
Proof.
  unfold __repr__. destruct (FeedItem.categories self) as [|c cs].
  - cbn [fmap list_fmap join truthy String.eqb negb].
    by rewrite !string_app_assoc.
  - rewrite fmap_cons. destruct (join_quoted ", " c (quoted <$> cs)) as [t ->].
    rewrite truthy_cons. by rewrite !string_app_assoc.
Qed.
End printed_form.

Section merge_only.
Context {engine : Regex}.
Import FilterStatistics.
#[local] Arguments FilterStatistics.add : simpl never.


End merge_only.

Section further_examples.
#[local] Existing Instance MiniRe.engine.
Import Sample Served.

(** The category pattern [*] does not compile: the rule raises for the
    advert, which has categories. *)
Lemma invalid_category_pattern_example :
  re_compile "*" = None ∧
  check_filters advert [FilterConfig.mk None (Some "*") None] = Raise re_error.
Proof.
  split; [reflexivity|].
  exact (invalid_category_pattern_needs_a_category "*" advert None []
           eq_refl).
Defined.

(** The same rule lets the release notes through, which have none. *)
Example invalid_category_pattern_unnoticed :
  check_filters tracked [FilterConfig.mk None (Some "*") None] = Ok false.
Proof. reflexivity. Qed.

Lemma rule_order_example :
  config_compiles (FeedConfig.mk "tech" [] [no_spam; no_ads] [important]) ∧
  is_blocked advert (FeedConfig.mk "tech" [] [no_ads; no_spam] [important])
    = is_blocked advert (FeedConfig.mk "tech" [] [no_spam; no_ads] [important]).
Proof.
  assert (config_compiles (FeedConfig.mk "tech" [] [no_spam; no_ads] [important]))
    as Hc by (repeat constructor; by eexists).
  split; [exact Hc|].
  apply (rule_order_is_irrelevant advert "tech" [] [no_spam; no_ads] [important]
           [no_ads; no_spam] [important] Hc); [apply perm_swap|done].
Defined.

(** Without the hypothesis the order matters: a pattern that does not
    compile raises or not according to its place. *)
Example rule_order_matters_for_invalid_patterns :
  check_filters advert [no_spam; FilterConfig.mk (Some "*") None None] = Ok true ∧
  check_filters advert [FilterConfig.mk (Some "*") None None; no_spam]
    = Raise re_error.
Proof. by vm_compute. Qed.


Lemma handle_feed_fails_early_example :
  find_feed (FeedsConfig.feeds config) "idle" = Some idle ∧
  handle_feed (Handler.init config) (client second_source)
    (Request.mk "idle" None) = (Failed IndexError, Handler.init config).
Proof.
  split; [reflexivity|].
  exact (proj1 (handle_feed_fails_early (Handler.init config)
                  (client second_source) (Request.mk "idle" None) idle eq_refl)
           eq_refl).
Defined.

Lemma sources_parse :
  Forall (λ source,
            Parsed.raised
              (parse_feed (Response.text (client second_source source "reader/1.0")))
              = None)
         (FeedConfig.urls tech).
Proof. repeat constructor. Qed.

Lemma handle_feed_answer_example :
  find_feed (FeedsConfig.feeds config) "tech" = Some tech ∧
  config_compiles tech ∧
  handle_feed (Handler.init config) (client second_source) request =
    (Returned (Answer.mk "application/rss+xml" (dump_feed [update; essay])),
     Handler.mk config
       (FilterStatistics.add_all FilterStatistics.empty
          [(update, true); (advert, false); (essay, true)])).
Proof.
  split; [reflexivity|]. split; [exact tech_compiles|].
  destruct (handle_feed_answer (Handler.init config) (client second_source)
              request tech "https://a.example/rss" ["https://b.example/rss"]
              "reader/1.0" "application/rss+xml; charset=utf-8"
              eq_refl tech_compiles eq_refl eq_refl eq_refl sources_parse)
    as [H _].
  rewrite H. vm_compute. reflexivity.
Defined.



(** A content type that holds [charset] after the cut: the pipeline
    runs and the ledger is updated, and the request fails when the
    response is built. *)
Example handle_feed_refuses_charset :
  handle_feed (Handler.init config) charset_client request =
    (Failed ValueError,
     Handler.mk config
       (FilterStatistics.add_all FilterStatistics.empty
          [(update, true); (advert, false)])).
Proof. vm_compute. reflexivity. Qed.

(** A second feed of the same name is not served: the request for
    [tech] is answered from the sources of the first. *)
Example shadowed_feed_is_not_served :
  find_feed (FeedsConfig.feeds config) "tech" = Some tech ∧
  shadowed ∈ FeedsConfig.feeds config ∧
  (handle_feed (Handler.init config) (client second_source)
     (Request.mk "nope" (Some "reader/1.0"))).1 = Failed HTTPNotFound.
Proof. split_and!; [reflexivity|set_solver|reflexivity]. Qed.
(** An upstream link that starts with the marker is cleaned to the empty
    link, and the entry is yielded with it. *)
Example parsed_link_can_be_empty :
  Parsed.yielded
    (parse_feed
       (feed_of [ET.Elt "item" ∅ None
                   [ ET.text_element "title" (Some "Buy now");
                     ET.Elt "guid" {["isPermaLink" := "true"]} (Some "g2") [];
                     ET.text_element "link" (Some "?utm_source=rss");
                     ET.text_element "description" (Some "An offer");
                     ET.text_element "pubDate" (Some "Tue, 02 Mar 2021");
                     ET.text_element dc_creator (Some "SpamKing") ]]))
    = [FeedItem.mk "Buy now" "g2" "true" "" "An offer" "Tue, 02 Mar 2021"
         [] "SpamKing"].
Proof. vm_compute. reflexivity. Qed.
End further_examples.
